(** * pg_prefaulter: the I/O cache and the agent's PostgreSQL accessors

    A shallow embedding of [agent/iocache/cache.go] and of the agent's
    database file ([dbState], [queryLag], [predictDBWALFilenames],
    [getWALFilesDB], [getPostgresVersion]), followed by the properties the
    specification states about them.

    Conventions.
    - A Go [error] is [option error_value]; [None] is [nil].
    - A function returning [(v, err)] returns a pair.
    - A slice is [option (list A)]: [None] is the nil slice, [Some []] the
      empty one.
    - Unsigned integers are [N], [int64] is [Z] (no arithmetic is done on
      either beyond comparison, so no wrap-around has to be written out,
      except in [ParseUint], where it is).
    - A panic is an outcome of its own, never an error value. *)

From Stdlib Require Import ZArith NArith String Ascii List Lia SpecFloat.
From stdpp Require Import base tactics option list gmap strings.

Local Open Scope string_scope.
Local Open Scope N_scope.

(** ** Go values *)

Inductive error_value : Type :=
| errorNew (msg : string)
| errorWrap (cause : error_value) (msg : string)
| NumError (Func Num : string) (Err : error_value).

#[global] Instance error_value_eq_dec : EqDecision error_value.
Proof. solve_decision. Defined.

(** The [error] interface; [None] is [nil]. *)
Definition error : Type := option error_value.

(** [errors.Wrap] and [errors.Wrapf] of github.com/pkg/errors annotate a
    non-nil error and return nil for a nil one. *)
Definition errors_Wrap (err : error) (message : string) : error :=
  match err with
  | None => None
  | Some e => Some (errorWrap e message)
  end.

Definition slice (A : Type) : Type := option (list A).

Definition slice_elems {A : Type} (s : slice A) : list A :=
  match s with
  | None => []
  | Some l => l
  end.

Inductive PanicValue : Type :=
| PanicSprintf (format : string) (arg : string)
| PanicIndexOutOfRange (index len : nat).

Inductive Outcome (A : Type) : Type :=
| Returns (a : A)
| Panics (p : PanicValue).
Arguments Returns {A} a.
Arguments Panics {A} p.

(** ** agent/fhcache *)

Module fhcache.

Inductive Fork : Type := ForkMain | ForkFSM | ForkVM | ForkInit.

Record FileHandleKey : Type := {
  fhDatabase : N;
  fhRelation : N;
  fhFork : Fork
}.

(** Modelled from the spec: type [FileHandleCache] of package
    agent/fhcache, which is missing.  Section 3 gives its entries as
    [(db, rel, fork) -> open_fd]. *)
Definition FileHandleCache : Type := list (FileHandleKey * N).

(** Modelled from the spec: [FileHandleCache.Purge], missing with its
    package.  Section 4.C: "closes and removes all entries". *)
Definition Purge (fhc : FileHandleCache) : FileHandleCache := [].

End fhcache.

(** ** agent/iocache *)

Module iocache.

(** [structs.IOCacheKey]; the three fields the worker's log call reads. *)
Record IOCacheKey : Type := {
  Database : N;
  Relation : N;
  Block : N
}.

#[global] Instance IOCacheKey_eq_dec : EqDecision IOCacheKey.
Proof. solve_decision. Defined.

#[global] Instance IOCacheKey_countable : Countable IOCacheKey :=
  inj_countable'
    (fun k => (Database k, Relation k, Block k))
    (fun t => {| Database := t.1.1; Relation := t.1.2; Block := t.2 |})
    (fun k => match k with Build_IOCacheKey _ _ _ => eq_refl end).

(** [config.IOCacheConfig]: the fields [New] reads. *)
Record IOCacheConfig : Type := {
  MaxConcurrentIOs : nat;
  Size : N;
  TTL : N
}.

(** Where a call of the loader function (lines 91-98) stands: blocked in
    its [select], or past it and about to return the marker. *)
Inductive LoaderPC : Type := AtSelect | AtReturn.

(** Where a worker goroutine (lines 59-85) stands: blocked in its
    [select], holding a dequeued request it is about to prefault, or
    returned. *)
Inductive WorkerPC : Type :=
| AtReceive
| AtPrefault (ioReq : IOCacheKey)
| Exited.

Inductive Event : Type :=
| EvHit (k : IOCacheKey)
| EvMiss (k : IOCacheKey)
| EvLoad (k : IOCacheKey)
| EvEnqueue (k : IOCacheKey) (threadID : nat)
| EvLoaderCtxDone (k : IOCacheKey)
| EvStore (k : IOCacheKey) (ttl : N)
| EvPrefault (threadID : nat) (k : IOCacheKey) (err : error)
| EvRemove (k : IOCacheKey)
| EvWarn (threadID : nat) (k : IOCacheKey) (msg : string)
| EvExpire (k : IOCacheKey)
| EvEvict (k : IOCacheKey)
| EvPurge.

#[global] Instance Event_eq_dec : EqDecision Event.
Proof. solve_decision. Defined.

(** The [IOCache] struct together with the goroutines [New] starts.
    The cache proper is gcache, a library the repository imports; what is
    taken from it is its documented contract: [GetIFPresent] returns the
    value of a present key and [KeyNotFoundError] for an absent one, for
    which it has the loader function called; the value the loader returns
    is stored under the key once the loader has returned; [Remove] and
    [Purge] drop one entry and all of them.
    - [c] is the set of keys gcache holds a live marker for (the value is
      [struct{}{}], so the key set is the whole content);
    - [loaders] is the set of loader calls in flight, one per key at the
      most: section 4.D of the spec makes the insertion protocol a
      critical section per key;
    - [workers] has one entry per worker goroutine, indexed by
      [threadID];
    - the unbuffered [ioWorkQueue] holds nothing: a send and a receive
      happen together, as one step;
    - [events] is the history, oldest first. *)
Record IOCache : Type := {
  ctxDone : bool;
  cfg : IOCacheConfig;
  c : gset IOCacheKey;
  fhCache : fhcache.FileHandleCache;
  loaders : gmap IOCacheKey LoaderPC;
  workers : list WorkerPC;
  events : list Event
}.

Definition set_ctxDone (b : bool) (ioc : IOCache) : IOCache :=
  {| ctxDone := b; cfg := cfg ioc; c := c ioc; fhCache := fhCache ioc;
     loaders := loaders ioc; workers := workers ioc; events := events ioc |}.

Definition set_c (s : gset IOCacheKey) (ioc : IOCache) : IOCache :=
  {| ctxDone := ctxDone ioc; cfg := cfg ioc; c := s; fhCache := fhCache ioc;
     loaders := loaders ioc; workers := workers ioc; events := events ioc |}.

Definition set_fhCache (fhc : fhcache.FileHandleCache) (ioc : IOCache) : IOCache :=
  {| ctxDone := ctxDone ioc; cfg := cfg ioc; c := c ioc; fhCache := fhc;
     loaders := loaders ioc; workers := workers ioc; events := events ioc |}.

Definition set_loaders (m : gmap IOCacheKey LoaderPC) (ioc : IOCache) : IOCache :=
  {| ctxDone := ctxDone ioc; cfg := cfg ioc; c := c ioc; fhCache := fhCache ioc;
     loaders := m; workers := workers ioc; events := events ioc |}.

Definition set_workers (ws : list WorkerPC) (ioc : IOCache) : IOCache :=
  {| ctxDone := ctxDone ioc; cfg := cfg ioc; c := c ioc; fhCache := fhCache ioc;
     loaders := loaders ioc; workers := ws; events := events ioc |}.

Definition emit (evs : list Event) (ioc : IOCache) : IOCache :=
  {| ctxDone := ctxDone ioc; cfg := cfg ioc; c := c ioc; fhCache := fhCache ioc;
     loaders := loaders ioc; workers := workers ioc; events := events ioc ++ evs |}.

(** [New]: [MaxConcurrentIOs] workers waiting on the queue, an empty
    cache.  This is [New] for a [cfg.Size] that gcache accepts: for a
    size of zero or less its [Build] (line 100) panics, after the
    workers were started, and no [IOCache] comes back. *)
Definition New (cfg0 : IOCacheConfig) (fhc : fhcache.FileHandleCache) : IOCache :=
  {| ctxDone := false; cfg := cfg0; c := ∅; fhCache := fhc;
     loaders := ∅; workers := replicate (MaxConcurrentIOs cfg0) AtReceive;
     events := [] |}.

Definition KeyNotFoundError : error_value := errorNew "Key not found.".

(** [GetIFPresent] forwards to gcache: a present key is a hit; an absent
    one reports [KeyNotFoundError] and has the loader function called for
    it, unless a call for that key is in flight already. *)
Definition GetIFPresent (k : IOCacheKey) (ioc : IOCache) : IOCache * (option unit * error) :=
  if decide (k ∈ c ioc) then
    (emit [EvHit k] ioc, (Some tt, None))
  else
    match loaders ioc !! k with
    | Some _ => (emit [EvMiss k] ioc, (None, Some KeyNotFoundError))
    | None =>
        (emit [EvMiss k; EvLoad k] (set_loaders (<[k := AtSelect]> (loaders ioc)) ioc),
         (None, Some KeyNotFoundError))
    end.

(** The loader's [select], second case (line 94): the send on the
    unbuffered queue completes when worker [threadID] receives (line 68). *)
Definition loaderSend (k : IOCacheKey) (threadID : nat) (ioc : IOCache) : option IOCache :=
  match loaders ioc !! k, workers ioc !! threadID with
  | Some AtSelect, Some AtReceive =>
      Some (emit [EvEnqueue k threadID]
              (set_workers (<[threadID := AtPrefault k]> (workers ioc))
                 (set_loaders (<[k := AtReturn]> (loaders ioc)) ioc)))
  | _, _ => None
  end.

(** The loader's [select], first case (line 93): the context is done and
    nothing is sent. *)
Definition loaderCtxDone (k : IOCacheKey) (ioc : IOCache) : option IOCache :=
  match loaders ioc !! k with
  | Some AtSelect =>
      if ctxDone ioc then
        Some (emit [EvLoaderCtxDone k] (set_loaders (<[k := AtReturn]> (loaders ioc)) ioc))
      else None
  | _ => None
  end.

(** The loader's return (line 97): gcache stores the value it is handed,
    [struct{}{}], under the key, to expire after [cfg.TTL]. *)
Definition loaderReturn (k : IOCacheKey) (ioc : IOCache) : option IOCache :=
  match loaders ioc !! k with
  | Some AtReturn =>
      Some (emit [EvStore k (TTL (cfg ioc))]
              (set_c ({[k]} ∪ c ioc) (set_loaders (delete k (loaders ioc)) ioc)))
  | _ => None
  end.

Definition warnMsg : string := "unable to prefault page".

(** The worker's body for a dequeued request (lines 73-82).  What
    [fhCache.PrefaultPage] does is left open: the error it returns and the
    file-handle cache it leaves behind are given from outside. *)
Definition workerPrefault (threadID : nat) (fhc' : fhcache.FileHandleCache) (err : error)
    (ioc : IOCache) : option IOCache :=
  match workers ioc !! threadID with
  | Some (AtPrefault ioReq) =>
      let ioc1 := emit [EvPrefault threadID ioReq err] (set_fhCache fhc' ioc) in
      let ioc2 :=
        match err with
        | Some _ =>
            emit [EvRemove ioReq; EvWarn threadID ioReq warnMsg]
              (set_c (c ioc1 ∖ {[ioReq]}) ioc1)
        | None => ioc1
        end in
      Some (set_workers (<[threadID := AtReceive]> (workers ioc2)) ioc2)
  | _ => None
  end.

(** The worker's [select], first case (lines 66-67). *)
Definition workerCtxDone (threadID : nat) (ioc : IOCache) : option IOCache :=
  match workers ioc !! threadID with
  | Some AtReceive =>
      if ctxDone ioc then Some (set_workers (<[threadID := Exited]> (workers ioc)) ioc)
      else None
  | _ => None
  end.

(** [Purge] (lines 113-119): the cache, then the file-handle cache. *)
Definition Purge (ioc : IOCache) : IOCache :=
  emit [EvPurge] (set_fhCache (fhcache.Purge (fhCache ioc)) (set_c ∅ ioc)).

(** What gcache does on its own: an entry's TTL runs out, or the ARC
    policy evicts an entry to stay within [cfg.Size]. *)
Definition expire (k : IOCacheKey) (ioc : IOCache) : option IOCache :=
  if decide (k ∈ c ioc) then Some (emit [EvExpire k] (set_c (c ioc ∖ {[k]}) ioc)) else None.

Definition evict (k : IOCacheKey) (ioc : IOCache) : option IOCache :=
  if decide (k ∈ c ioc) then Some (emit [EvEvict k] (set_c (c ioc ∖ {[k]}) ioc)) else None.

(** One step of the whole: which goroutine moves, and what the outside
    world answers. *)
Inductive Action : Type :=
| ARequest (k : IOCacheKey)
| ALoaderSend (k : IOCacheKey) (threadID : nat)
| ALoaderCtxDone (k : IOCacheKey)
| ALoaderReturn (k : IOCacheKey)
| AWorkerPrefault (threadID : nat) (fhc' : fhcache.FileHandleCache) (err : error)
| AWorkerCtxDone (threadID : nat)
| ACancel
| AExpire (k : IOCacheKey)
| AEvict (k : IOCacheKey)
| APurge.

Definition step (ioc : IOCache) (a : Action) : option IOCache :=
  match a with
  | ARequest k => Some (GetIFPresent k ioc).1
  | ALoaderSend k threadID => loaderSend k threadID ioc
  | ALoaderCtxDone k => loaderCtxDone k ioc
  | ALoaderReturn k => loaderReturn k ioc
  | AWorkerPrefault threadID fhc' err => workerPrefault threadID fhc' err ioc
  | AWorkerCtxDone threadID => workerCtxDone threadID ioc
  | ACancel => Some (set_ctxDone true ioc)
  | AExpire k => expire k ioc
  | AEvict k => evict k ioc
  | APurge => Some (Purge ioc)
  end.

Fixpoint run (ioc : IOCache) (acts : list Action) : option IOCache :=
  match acts with
  | [] => Some ioc
  | a :: acts' =>
      match step ioc a with
      | Some ioc' => run ioc' acts'
      | None => None
      end
  end.

(** How often [k] was handed to a worker, and how often a prefault read
    was issued for it. *)
Definition isEnqueue (k : IOCacheKey) (e : Event) : bool :=
  match e with
  | EvEnqueue k' _ => bool_decide (k' = k)
  | _ => false
  end.

Definition isPrefault (k : IOCacheKey) (e : Event) : bool :=
  match e with
  | EvPrefault _ k' _ => bool_decide (k' = k)
  | _ => false
  end.

Definition enqueues (k : IOCacheKey) (evs : list Event) : nat :=
  length (List.filter (isEnqueue k) evs).

Definition prefaults (k : IOCacheKey) (evs : list Event) : nat :=
  length (List.filter (isPrefault k) evs).

(** An event that takes [k]'s marker away: expiry, eviction, the removal
    after a failed prefault, a purge. *)
Definition dropsMarker (k : IOCacheKey) (e : Event) : bool :=
  match e with
  | EvRemove k' | EvExpire k' | EvEvict k' => bool_decide (k' = k)
  | EvPurge => true
  | _ => false
  end.

Definition markerKept (k : IOCacheKey) (evs : list Event) : Prop :=
  forallb (fun e => negb (dropsMarker k e)) evs = true.

Definition holds (k : IOCacheKey) (w : WorkerPC) : bool :=
  match w with
  | AtPrefault k' => bool_decide (k' = k)
  | _ => false
  end.

Definition hasExited (w : WorkerPC) : bool :=
  match w with
  | Exited => true
  | _ => false
  end.

Definition isBusy (w : WorkerPC) : bool :=
  match w with
  | AtPrefault _ => true
  | _ => false
  end.

(** Over all keys: the requests taken off the queue so far, the
    prefaults done so far, and the workers holding a request. *)
Definition isDequeue (e : Event) : bool :=
  match e with
  | EvEnqueue _ _ => true
  | _ => false
  end.

Definition isPrefaultDone (e : Event) : bool :=
  match e with
  | EvPrefault _ _ _ => true
  | _ => false
  end.

Definition dequeued (evs : list Event) : nat := length (List.filter isDequeue evs).

Definition prefaulted (evs : list Event) : nat := length (List.filter isPrefaultDone evs).

Definition busy (ws : list WorkerPC) : nat := length (List.filter isBusy ws).

(** [Wait] (lines 121-124) blocks on the wait group, which every worker
    leaves as it returns: [Wait] returns in the states where every
    worker has returned. *)
Definition Wait_returns (ioc : IOCache) : bool := forallb hasExited (workers ioc).

(** The schedule that lets the workers [ws], numbered from [threadID],
    go after the context is done: a worker holding a request finishes
    its prefault, to which [fhCache.PrefaultPage] answers [answers], and
    every worker then takes the done case of its [select]. *)
Fixpoint drainWorkers (answers : nat -> fhcache.FileHandleCache * error)
    (ws : list WorkerPC) (threadID : nat) : list Action :=
  match ws with
  | [] => []
  | w :: ws' =>
      match w with
      | AtReceive => [AWorkerCtxDone threadID]
      | AtPrefault _ =>
          [AWorkerPrefault threadID (answers threadID).1 (answers threadID).2;
           AWorkerCtxDone threadID]
      | Exited => []
      end ++ drainWorkers answers ws' (S threadID)
  end.

End iocache.

(** ** agent *)

Module agent.

(** [pg.TimelineID] is a [uint32], [pg.LSN] a [uint64], [pg.WALFilename]
    a string, [units.Base2Bytes] an [int64]. *)
Definition TimelineID : Type := N.
Definition LSN : Type := N.
Definition WALFilename : Type := string.
Definition Base2Bytes : Type := Z.
Definition float64 : Type := spec_float.

Definition MaxInt64 : Z := 9223372036854775807.
Definition MinInt64 : Z := -9223372036854775808.

Inductive _DBState : Type :=
| _DBStateUnknown
| _DBStatePrimary
| _DBStateFollower.

Definition _DBState_String (s : _DBState) : string :=
  match s with
  | _DBStateUnknown => "unknown"
  | _DBStatePrimary => "primary"
  | _DBStateFollower => "follower"
  end.

Inductive _QueryLag : Type :=
| _QueryLagUnknown
| _QueryLagPrimary
| _QueryLagFollower.

(** [%v] of a [_QueryLag], an [int] with no [String] method. *)
Definition _QueryLag_format (q : _QueryLag) : string :=
  match q with
  | _QueryLagUnknown => "0"
  | _QueryLagPrimary => "1"
  | _QueryLagFollower => "2"
  end.

(** The six columns [queryLag] scans a row into. *)
Record LagRow : Type := {
  senderState : string;
  syncState : string;
  durabilityLagBytes : float64;
  flushLagBytes : float64;
  visibilityLagBytes : float64;
  visibilityLagMs : float64
}.

(** What [rows.Scan] makes of one row. *)
Inductive ScanResult : Type :=
| ScanOK (row : LagRow)
| ScanFails (e : error_value).

(** What [pool.QueryEx] answers: an error, or the rows [rows.Next]
    delivers, in order, and the value of [rows.Err()] once [rows.Next]
    has returned false. *)
Inductive QueryResult : Type :=
| QueryFails (e : error_value)
| QueryRows (rows : list ScanResult) (rowsErr : error).

Inductive LogLevel : Type := LevelDebug | LevelInfo | LevelWarn | LevelError.

Inductive Event : Type :=
| EvNewConnPool
| EvQueryRowEx (sql : string)
| EvQueryEx (sql : string)
| EvQueryOldestLSNs
| EvWALFilename (lsn : LSN) (timelineID : TimelineID)
| EvParseWalfile (walFile : WALFilename)
| EvReadahead (lsn : LSN) (timelineID : TimelineID) (maxBytes : Base2Bytes)
| EvWALCachePurge
| EvLog (level : LogLevel) (msg : string).

(** Modelled from the spec: type [WALCache] of package agent/walcache,
    which is missing.  The spec does not name the WAL cache; the agent
    reaches the I/O cache through it, so it is its own list of cached WAL
    file names and the I/O cache below it. *)
Record WALCache : Type := {
  wc_c : list WALFilename;
  ioCache : iocache.IOCache
}.

(** Modelled from the spec: [WALCache.Purge], missing with its package.
    What a timeline change purges is, by sections 3 ("triggers a full I/O
    cache purge"), 4.D ("empties the I/O cache and cascades to the
    file-handle cache.  Invoked on timeline change") and 4.E, the I/O
    cache; so [Purge] empties the WAL cache's own entries and purges the
    I/O cache below. *)
Definition WALCache_Purge (wc : WALCache) : WALCache :=
  {| wc_c := []; ioCache := iocache.Purge (ioCache wc) |}.

(** The fields of [Agent] the functions below touch; [pool] is [true]
    once the connection pool exists. *)
Record Agent : Type := {
  pool : bool;
  lastTimelineID : TimelineID;
  lastWALLog : WALFilename;
  walCache : WALCache
}.

Definition set_pool (b : bool) (a : Agent) : Agent :=
  {| pool := b; lastTimelineID := lastTimelineID a;
     lastWALLog := lastWALLog a; walCache := walCache a |}.

Definition set_lastTimelineID (t : TimelineID) (a : Agent) : Agent :=
  {| pool := pool a; lastTimelineID := t;
     lastWALLog := lastWALLog a; walCache := walCache a |}.

Definition set_lastWALLog (f : WALFilename) (a : Agent) : Agent :=
  {| pool := pool a; lastTimelineID := lastTimelineID a;
     lastWALLog := f; walCache := walCache a |}.

Definition set_walCache (wc : WALCache) (a : Agent) : Agent :=
  {| pool := pool a; lastTimelineID := lastTimelineID a;
     lastWALLog := lastWALLog a; walCache := wc |}.

(** Everything outside the agent: the configuration, PostgreSQL, and the
    functions of package [pg] and of the WAL cache that the agent calls.
    An answer of PostgreSQL may depend on all that happened before, so it
    is a function of the trace so far. *)
Record Env : Type := {
  pgMode : string;
  LagPrimary : string;
  LagFollower : string;
  ReadaheadBytes : Base2Bytes;
  NewConnPool : list Event -> error;
  pg_is_in_recovery : list Event -> error_value + bool;
  QueryEx : list Event -> string -> QueryResult;
  QueryOldestLSNs : list Event -> TimelineID * list LSN * error;
  LSN_WALFilename : LSN -> TimelineID -> WALFilename;
  ParseWalfile : WALFilename -> TimelineID * LSN * error;
  LSN_Readahead : LSN -> TimelineID -> Base2Bytes -> slice WALFilename;
  (** Go leaves the conversion of a float that has no [int64] value
      (NaN, an infinity, out of range) to the implementation. *)
  int64_unrepresentable : float64 -> Z
}.

(** *** The agent's computations: state, trace, panics *)

Record World : Type := {
  self : Agent;
  trace : list Event
}.

Definition M (A : Type) : Type := World -> Outcome A * World.

#[global] Instance M_ret : MRet M := fun A a w => (Returns a, w).

#[global] Instance M_bind : MBind M := fun A B f m w =>
  match m w with
  | (Returns a, w') => f a w'
  | (Panics p, w') => (Panics p, w')
  end.

Definition panic {A : Type} (p : PanicValue) : M A := fun w => (Panics p, w).

Definition getSelf : M Agent := fun w => (Returns (self w), w).

Definition getTrace : M (list Event) := fun w => (Returns (trace w), w).

Definition modifySelf (f : Agent -> Agent) : M unit :=
  fun w => (Returns tt, {| self := f (self w); trace := trace w |}).

Definition emit (e : Event) : M unit :=
  fun w => (Returns tt, {| self := self w; trace := trace w ++ [e] |}).

(** *** Conversions *)

(** A float with its fraction discarded: Go truncates towards zero. *)
Definition float64_trunc (f : float64) : option Z :=
  match f with
  | S754_zero _ => Some 0%Z
  | S754_finite s m e =>
      let mag := (if 0 <=? e then Z.pos m * 2 ^ e else Z.pos m / 2 ^ (- e))%Z in
      Some (if s then (- mag)%Z else mag)
  | S754_infinity _ | S754_nan => None
  end.

(** [units.Base2Bytes(f)] for a [float64] [f]. *)
Definition Base2Bytes_of_float64 (env : Env) (f : float64) : Base2Bytes :=
  match float64_trunc f with
  | Some z =>
      if ((MinInt64 <=? z) && (z <=? MaxInt64))%Z then z
      else int64_unrepresentable env f
  | None => int64_unrepresentable env f
  end.

Definition NaN : float64 := S754_nan.

(** *** The database accessors *)

(** [dbState]: the configured mode, or what [pg_is_in_recovery()] says.
    The query goes through [a.pool] (line 131), and [pg_is_in_recovery]
    is the answer of a pool that exists: [dbState] stands for the call
    on an agent with [pool = true].  With a nil pool and mode auto the
    code dereferences nil there; such worlds are kept out by hypothesis
    where a statement is about all the function can do. *)
Definition dbState (env : Env) : M (_DBState * error) :=
  let mode := pgMode env in
  if String.eqb mode "primary" then mret (_DBStatePrimary, None)
  else if String.eqb mode "follower" then mret (_DBStateFollower, None)
  else if String.eqb mode "auto" then
    tr ← getTrace;
    emit (EvQueryRowEx "SELECT pg_is_in_recovery()");;
    match pg_is_in_recovery env tr with
    | inl err =>
        mret (_DBStateUnknown, errors_Wrap (Some err) "unable to execute primary check")
    | inr inRecovery =>
        if inRecovery : bool then mret (_DBStateFollower, None)
        else mret (_DBStatePrimary, None)
    end
  else panic (PanicSprintf "invalid mode: %q" mode).

(** [ensureDBPool]: the pool is made on first use.  The two lock
    sections test the same field and are one test here. *)
Definition ensureDBPool (env : Env) : M error :=
  a ← getSelf;
  if pool a then mret None
  else
    tr ← getTrace;
    emit EvNewConnPool;;
    match NewConnPool env tr with
    | Some e => mret (errors_Wrap (Some e) "unable to create a new DB connection pool")
    | None => modifySelf (set_pool true);; mret None
    end.

Definition unknownLag : Base2Bytes := MaxInt64.

(** The variables of [queryLag] the row loop assigns. *)
Record LagVars : Type := {
  lv_err : error;
  lv_row : LagRow;
  lv_numRows : nat
}.

Definition LagVars_init : LagVars :=
  {| lv_err := None;
     lv_row := {| senderState := ""; syncState := "";
                  durabilityLagBytes := NaN; flushLagBytes := NaN;
                  visibilityLagBytes := NaN; visibilityLagMs := NaN |};
     lv_numRows := 0 |}.

(** [for rows.Next() { err = rows.Scan(...); if err != nil { return };
    numRows++ }]: left is the early return with the scan's error. *)
Fixpoint queryLag_rows (rows : list ScanResult) (vars : LagVars) : error_value + LagVars :=
  match rows with
  | [] => inr vars
  | ScanFails e :: _ => inl e
  | ScanOK row :: rest =>
      queryLag_rows rest
        {| lv_err := None; lv_row := row; lv_numRows := S (lv_numRows vars) |}
  end.

Definition queryLag_sql (env : Env) (lagQuery : _QueryLag) : option string :=
  match lagQuery with
  | _QueryLagPrimary => Some (LagPrimary env)
  | _QueryLagFollower => Some (LagFollower env)
  | _QueryLagUnknown => None
  end.

(** [queryLag].  As in [dbState], [QueryEx] is the answer of a pool that
    exists (line 297 calls [a.pool.QueryEx]). *)
Definition queryLag (env : Env) (lagQuery : _QueryLag) : M (Base2Bytes * error) :=
  match queryLag_sql env lagQuery with
  | None => panic (PanicSprintf "unsupported query: %v" (_QueryLag_format lagQuery))
  | Some sql =>
      tr ← getTrace;
      emit (EvQueryEx sql);;
      match QueryEx env tr sql with
      | QueryFails e =>
          mret (unknownLag,
                errors_Wrap (Some e) ("unable to query lag: " ++ _QueryLag_format lagQuery))
      | QueryRows rows rowsErr =>
          match queryLag_rows rows LagVars_init with
          | inl e => mret (unknownLag, errors_Wrap (Some e) "unable to scan lag response")
          | inr vars =>
              match rowsErr with
              | Some _ =>
                  mret (unknownLag, errors_Wrap (lv_err vars) "unable to process lag")
              | None =>
                  mret (Base2Bytes_of_float64 env (visibilityLagBytes (lv_row vars)), None)
              end
          end
      end
  end.

Definition predictDBWALFilenames (env : Env) (walFile : WALFilename)
    : M (slice WALFilename * error) :=
  '(dbState0, err) ← dbState env;
  match err with
  | Some _ =>
      emit (EvLog LevelError
              "unable to determine if database is primary or not, retrying");;
      mret (Some [walFile], err)
  | None =>
      match dbState0 with
      | _DBStatePrimary => mret (Some [], None)
      | _DBStateFollower =>
          '(visibilityLagBytes0, err) ← queryLag env _QueryLagFollower;
          match err with
          | Some _ => mret (None, errors_Wrap err "unable to query follower lag")
          | None =>
              emit (EvParseWalfile walFile);;
              let '(timelineID, lsn, err) := ParseWalfile env walFile in
              match err with
              | Some _ =>
                  mret (None,
                        errors_Wrap err
                          "unable to parse WAL file while predicting names from the DB")
              | None =>
                  let maxBytes := ReadaheadBytes env in
                  let maxBytes :=
                    if (maxBytes >? visibilityLagBytes0)%Z then visibilityLagBytes0
                    else maxBytes in
                  emit (EvReadahead lsn timelineID maxBytes);;
                  mret (LSN_Readahead env lsn timelineID maxBytes, None)
              end
          end
      | _DBStateUnknown =>
          panic (PanicSprintf "unknown state: %+v" (_DBState_String dbState0))
      end
  end.

(** The first closure of [getWALFilesDB] (lines 208-219). *)
Definition observeTimeline (timelineID : TimelineID) : M unit :=
  a ← getSelf;
  if negb (lastTimelineID a =? timelineID) then
    (if negb (lastTimelineID a =? 0) then
       emit EvWALCachePurge;;
       modifySelf (fun a => set_walCache (WALCache_Purge (walCache a)) a)
     else mret tt);;
    modifySelf (set_lastTimelineID timelineID)
  else mret tt.

(** The second closure (lines 224-236); [numWALFiles] is counted and
    never read. *)
Definition observeWALFile (walFile : WALFilename) (numWALFiles : N) : M N :=
  a ← getSelf;
  if negb (String.eqb (lastWALLog a) walFile) then
    let numWALFiles' :=
      if negb (String.eqb (lastWALLog a) "") then numWALFiles + 1 else numWALFiles in
    modifySelf (set_lastWALLog walFile);;
    mret numWALFiles'
  else mret numWALFiles.

Fixpoint getWALFilesDB_loop (env : Env) (timelineID : TimelineID) (oldLSNs : list LSN)
    (numWALFiles : N) (walFiles : list WALFilename) : M (list WALFilename) :=
  match oldLSNs with
  | [] => mret walFiles
  | oldLSN :: rest =>
      emit (EvWALFilename oldLSN timelineID);;
      let walFile := LSN_WALFilename env oldLSN timelineID in
      numWALFiles' ← observeWALFile walFile numWALFiles;
      '(predictedWALFiles, err) ← predictDBWALFilenames env walFile;
      match err with
      | Some _ =>
          emit (EvLog LevelDebug "unable to predict DB WAL filenames");;
          getWALFilesDB_loop env timelineID rest numWALFiles' walFiles
      | None =>
          getWALFilesDB_loop env timelineID rest numWALFiles'
            (walFiles ++ slice_elems predictedWALFiles)
      end
  end.

Definition getWALFilesDB (env : Env) : M (slice WALFilename * error) :=
  err ← ensureDBPool env;
  match err with
  | Some _ => mret (None, errors_Wrap err "unable to get WAL db files")
  | None =>
      tr ← getTrace;
      emit EvQueryOldestLSNs;;
      let '(timelineID, oldLSNs, err) := QueryOldestLSNs env tr in
      match err with
      | Some _ =>
          mret (None,
                errors_Wrap err "unable to query PostgreSQL checkpoint information")
      | None =>
          observeTimeline timelineID;;
          walFiles ← getWALFilesDB_loop env timelineID oldLSNs 0 [];
          mret (Some walFiles, None)
      end
  end.

(** *** PG_VERSION *)

(** The file system as [getPostgresVersion] sees it. *)
Record FileSystem : Type := {
  path_Join : string -> string -> string;
  ioutil_ReadFile : string -> error_value + string
}.

Definition newline : ascii := ascii_of_N 10.
Definition carriageReturn : ascii := ascii_of_N 13.

(** The bytes before the first newline, and whether there is one. *)
Fixpoint untilNewline (data : string) : string * bool :=
  match data with
  | EmptyString => (EmptyString, false)
  | String ch rest =>
      if Ascii.eqb ch newline then (EmptyString, true)
      else let '(line, found) := untilNewline rest in (String ch line, found)
  end.

(** [dropCR] of package bufio: one trailing carriage return goes. *)
Fixpoint dropCR (data : string) : string :=
  match data with
  | EmptyString => EmptyString
  | String ch EmptyString =>
      if Ascii.eqb ch carriageReturn then EmptyString else data
  | String ch rest => String ch (dropCR rest)
  end.

Definition MaxScanTokenSize : N := 65536.

Definition ErrTooLong : error_value := errorNew "bufio.Scanner: token too long".

(** [for scanner.Scan() { text = scanner.Text(); break }] followed by
    [scanner.Err()], for a fresh [bufio.Scanner] over [buf]: the first
    line, or no line at all and nil at the end of input, or
    [ErrTooLong] when the buffer fills up, at [MaxScanTokenSize] bytes,
    with no newline in it. *)
Definition scanFirstLine (buf : string) : string * error :=
  let '(line, found) := untilNewline buf in
  if found then
    if N.of_nat (String.length line) <? MaxScanTokenSize then (dropCR line, None)
    else (EmptyString, Some ErrTooLong)
  else
    if N.of_nat (String.length buf) <? MaxScanTokenSize then (dropCR line, None)
    else (EmptyString, Some ErrTooLong).

(** [strings.Split(s, sep)] for a separator of one byte: one part more
    than there are separators. *)
Fixpoint strings_Split (s : string) (sep : ascii) : list string :=
  match s with
  | EmptyString => [EmptyString]
  | String ch rest =>
      if Ascii.eqb ch sep then EmptyString :: strings_Split rest sep
      else
        match strings_Split rest sep with
        | part :: parts => String ch part :: parts
        | [] => [String ch EmptyString]
        end
  end.

(** [strconv.ErrSyntax] and [strconv.ErrRange]; [ParseUint] hands them
    out inside a [*strconv.NumError] that names the function and the
    string parsed. *)
Definition ErrSyntax : error_value := errorNew "invalid syntax".
Definition ErrRange : error_value := errorNew "value out of range".

Definition isDigit (ch : ascii) : bool :=
  (48 <=? N_of_ascii ch) && (N_of_ascii ch <=? 57).

Definition two64 : N := 18446744073709551616.

(** The digit loop of [strconv.ParseUint] in base 10, on [uint64] with
    its wrap-around: a byte that is no decimal digit is a syntax error,
    a value beyond [maxVal] a range error that returns [maxVal]. *)
Fixpoint ParseUint_loop (s : string) (n : N) (cutoff maxVal : N) : N * error :=
  match s with
  | EmptyString => (n, None)
  | String ch rest =>
      if isDigit ch then
        let d := N_of_ascii ch - 48 in
        if cutoff <=? n then (maxVal, Some ErrRange)
        else
          let n' := (n * 10) mod two64 in
          let n1 := (n' + d) mod two64 in
          if (n1 <? n') || (maxVal <? n1) then (maxVal, Some ErrRange)
          else ParseUint_loop rest n1 cutoff maxVal
      else (0, Some ErrSyntax)
  end.

(** [strconv.ParseUint(s, 10, bitSize)] for [0 < bitSize <= 64]. *)
Definition strconv_ParseUint (s : string) (bitSize : N) : N * error :=
  match s with
  | EmptyString => (0, Some (NumError "ParseUint" s ErrSyntax))
  | _ =>
      let '(n, err) := ParseUint_loop s 0 ((two64 - 1) / 10 + 1) (2 ^ bitSize - 1) in
      match err with
      | Some e => (n, Some (NumError "ParseUint" s e))
      | None => (n, None)
      end
  end.

Fixpoint formatDigits (fuel : nat) (n : N) (acc : string) : string :=
  match fuel with
  | O => acc
  | S fuel' =>
      let acc' := String (ascii_of_N (48 + n mod 10)) acc in
      if n <? 10 then acc' else formatDigits fuel' (n / 10) acc'
  end.

(** [%d] of a [uint64]: at most twenty digits. *)
Definition format_d (n : N) : string := formatDigits 20 n EmptyString.

Definition getPostgresVersion (fs : FileSystem) (pgDataPath : string)
    : Outcome (N * error) :=
  let pgMajor := 0 in
  let versionFileAbs := path_Join fs pgDataPath "PG_VERSION" in
  match ioutil_ReadFile fs versionFileAbs with
  | inl err => Returns (pgMajor, errors_Wrap (Some err) "unable to read PG_VERSION")
  | inr buf =>
      let '(versionStringRaw, err) := scanFirstLine buf in
      match err with
      | Some _ =>
          Returns (pgMajor,
                   errors_Wrap err "unable to extract PostgreSQL's version string")
      | None =>
          let parts := strings_Split versionStringRaw "." in
          match parts !! 0%nat with
          | None => Panics (PanicIndexOutOfRange 0 (length parts))
          | Some part0 =>
              let '(first, err) := strconv_ParseUint part0 32 in
              match err with
              | Some _ =>
                  Returns (pgMajor,
                           errors_Wrap err "unable to parse first section of version")
              | None =>
                  let pgVersionString : Outcome string :=
                    if first <? 10 then
                      match parts !! 1%nat with
                      | None => Panics (PanicIndexOutOfRange 1 (length parts))
                      | Some second =>
                          Returns (format_d (first * 10) ++ second ++ "00")
                      end
                    else Returns (format_d first ++ "0000") in
                  match pgVersionString with
                  | Panics p => Panics p
                  | Returns pgVersionString =>
                      let '(pgMajor, err) := strconv_ParseUint pgVersionString 32 in
                      match err with
                      | Some _ =>
                          Returns (pgMajor,
                                   errors_Wrap err
                                     "unable to parse version back to integer")
                      | None => Returns (pgMajor, None)
                      end
                  end
              end
          end
      end
  end.

(** [findPostgreSQLPostmasterPID]: the first line of the PID file as a
    [uint64].  [proc.PID] is a type of package [proc]; the conversion
    to it is [toPID], and [errValue] is [toPID 0]. *)
Definition findPostgreSQLPostmasterPID {PID : Type} (toPID : N -> PID)
    (fs : FileSystem) (PostgreSQLPIDPath : string) : PID * error :=
  let errValue := toPID 0 in
  match ioutil_ReadFile fs PostgreSQLPIDPath with
  | inl err =>
      (errValue, errors_Wrap (Some err) "unable to read PostgreSQL postmaster PID file")
  | inr buf =>
      let '(pidStr, err) := scanFirstLine buf in
      match err with
      | Some _ => (errValue, errors_Wrap err "unable to extract PostgreSQL's PID number")
      | None =>
          let '(pid64, err) := strconv_ParseUint pidStr 64 in
          match err with
          | Some _ => (errValue, errors_Wrap err "unable to parse PostgreSQL PID number")
          | None => (toPID pid64, None)
          end
      end
  end.

(** The normalisation as the spec's formula words it (section 4.F):
    [first < 10 ? (first*10)*100 + second*100 : first*10000]. *)
Definition normalise_formula_of_spec (first second : N) : N :=
  if first <? 10 then (first * 10) * 100 + second * 100 else first * 10000.

End agent.

(** ** Decimal numerals and version lines *)

Module numerals.
Import agent.

Fixpoint allDigits (s : string) : bool :=
  match s with
  | EmptyString => true
  | String ch rest => isDigit ch && allDigits rest
  end.

(** The number a string of digits denotes, continuing from [acc]. *)
Fixpoint decimalValue (s : string) (acc : N) : N :=
  match s with
  | EmptyString => acc
  | String ch rest => decimalValue rest (acc * 10 + (N_of_ascii ch - 48))
  end.

(** A first line of the form [<major>[.<minor>]], in decimal. *)
Definition versionLine (major : N) (minor : option N) : string :=
  format_d major ++
  match minor with
  | Some second => "." ++ format_d second
  | None => ""
  end.

(** A [PG_VERSION] whose first line is [line]: the line alone, or the
    line, a newline and whatever follows. *)
Definition fileOf (line : string) (rest : option string) : string :=
  match rest with
  | None => line
  | Some r => line ++ String newline r
  end.

(** [PG_VERSION] under [pgDataPath] reads as [buf]. *)
Definition holdsFile (fs : FileSystem) (pgDataPath buf : string) : Prop :=
  ioutil_ReadFile fs (path_Join fs pgDataPath "PG_VERSION") = inr buf.

(** Neither a newline nor a carriage return occurs in [s]. *)
Fixpoint oneLine (s : string) : bool :=
  match s with
  | EmptyString => true
  | String ch rest =>
      negb (Ascii.eqb ch newline) && negb (Ascii.eqb ch carriageReturn) && oneLine rest
  end.

End numerals.

(** ** Concrete surroundings, for running the definitions *)

Module examples.
Import agent.

(** A file system whose [PG_VERSION] holds [content]. *)
Definition fsWith (content : string) : FileSystem :=
  {| path_Join := fun dir file => dir ++ "/" ++ file;
     ioutil_ReadFile := fun _ => inr content |}.

Definition key1 : iocache.IOCacheKey :=
  {| iocache.Database := 16384; iocache.Relation := 2619; iocache.Block := 7 |}.

Definition cfg2 : iocache.IOCacheConfig :=
  {| iocache.MaxConcurrentIOs := 2; iocache.Size := 1024; iocache.TTL := 60 |}.

(** The I/O cache of [cfg2], started with no open file, after [acts];
    the cache as started when [acts] cannot run. *)
Definition iocAfter (acts : list iocache.Action) : iocache.IOCache :=
  default (iocache.New cfg2 []) (iocache.run (iocache.New cfg2 []) acts).

(** A request, its hand-over to worker 0, and the store of the marker. *)
Definition loadKey1 : list iocache.Action :=
  [iocache.ARequest key1; iocache.ALoaderSend key1 0; iocache.ALoaderReturn key1].

(** A request, its hand-over to worker 0, and the prefault, done before
    the loader has returned. *)
Definition prefaultFirst : list iocache.Action :=
  [iocache.ARequest key1; iocache.ALoaderSend key1 0;
   iocache.AWorkerPrefault 0 [] None].

(** Requests for one key from two callers at once, and again after the
    marker is stored and after the prefault. *)
Definition duplicateRequests : list iocache.Action :=
  [iocache.ARequest key1; iocache.ARequest key1; iocache.ALoaderSend key1 0;
   iocache.ARequest key1; iocache.ALoaderReturn key1; iocache.ARequest key1;
   iocache.AWorkerPrefault 0 [] None; iocache.ARequest key1].

(** A request while the context is cancelled: the loader sees the
    context done, sends nothing, and returns the marker. *)
Definition requestAtShutdown : list iocache.Action :=
  [iocache.ARequest key1; iocache.ACancel; iocache.ALoaderCtxDone key1;
   iocache.ALoaderReturn key1].

(** A follower's surroundings: the mode, what [pg_is_in_recovery()] and
    the lag query answer, and the timeline PostgreSQL reports. *)
Definition envWith (mode : string) (inRecovery : error_value + bool)
    (lag : QueryResult) (timelineID : TimelineID) : Env :=
  {| pgMode := mode;
     LagPrimary := "SELECT lag FROM primary";
     LagFollower := "SELECT lag FROM follower";
     ReadaheadBytes := 33554432%Z;
     NewConnPool := fun _ => None;
     pg_is_in_recovery := fun _ => inRecovery;
     QueryEx := fun _ _ => lag;
     QueryOldestLSNs := fun _ => (timelineID, [11458838528], None);
     LSN_WALFilename := fun _ _ => "0000000100000002000000AB";
     ParseWalfile := fun _ => (timelineID, 11458838528, None);
     LSN_Readahead := fun _ _ _ => Some ["0000000100000002000000AB"];
     int64_unrepresentable := fun _ => MinInt64 |}.

Definition sqlFollower : string := "SELECT lag FROM follower".

Definition follower (lag : QueryResult) : Env := envWith "follower" (inr true) lag 8.

Definition walAB : WALFilename := "0000000100000002000000AB".

Definition lagRow (visibility : float64) : LagRow :=
  {| senderState := "streaming"; syncState := "async";
     durabilityLagBytes := S754_zero false; flushLagBytes := S754_zero false;
     visibilityLagBytes := visibility; visibilityLagMs := S754_zero false |}.

(** 4096 as a [float64]: 1 * 2^12. *)
Definition float4096 : float64 := S754_finite false 1 12.

(** An agent that last saw timeline [lastTimeline], with one marker in
    its I/O cache and one open file handle. *)
Definition worldAt (lastTimeline : TimelineID) : World :=
  {| self :=
       {| pool := true; lastTimelineID := lastTimeline; lastWALLog := "";
          walCache :=
            {| wc_c := ["0000000100000002000000AA"];
               ioCache :=
                 iocache.set_c {[ key1 ]}
                   (iocache.New cfg2
                      [({| fhcache.fhDatabase := 16384; fhcache.fhRelation := 2619;
                           fhcache.fhFork := fhcache.ForkMain |}, 9)]) |} |};
     trace := [] |}.

(** A request handed to worker 0, the loader not yet returned. *)
Definition handedOver : list iocache.Action :=
  [iocache.ARequest key1; iocache.ALoaderSend key1 0].

(** [loadKey1], and then the prefault of worker 0 fails. *)
Definition failedPrefault : list iocache.Action :=
  [iocache.ARequest key1; iocache.ALoaderSend key1 0; iocache.ALoaderReturn key1;
   iocache.AWorkerPrefault 0 [] (Some (errorNew "no such file or directory"))].

(** The context is cancelled and both workers of [cfg2] return. *)
Definition shutdownRun : list iocache.Action :=
  [iocache.ACancel; iocache.AWorkerCtxDone 0; iocache.AWorkerCtxDone 1].

(** A request that arrives once the workers are gone. *)
Definition lateRequest : list iocache.Action :=
  [iocache.ARequest key1; iocache.ALoaderCtxDone key1; iocache.ALoaderReturn key1].

(** A [postmaster.pid]: the PID on the first line, the data directory
    on the second. *)
Definition pidFile : string := numerals.fileOf "4711" (Some "/var/lib/postgresql/data").

End examples.

Local Open Scope list_scope.

(** ** What a computation of the agent leaves alone *)

Module frames.
Import agent.

Definition isPurge (e : Event) : bool :=
  match e with
  | EvWALCachePurge => true
  | _ => false
  end.

(** How many purges of the caches a trace holds. *)
Definition purges (tr : list Event) : nat := length (List.filter isPurge tr).

(** [m] leaves the timeline last seen and the caches as they are, and
    purges nothing, whatever it returns and even when it panics. *)
Definition keepsCaches {A : Type} (m : M A) : Prop :=
  forall w,
    lastTimelineID (self (m w).2) = lastTimelineID (self w)
    /\ walCache (self (m w).2) = walCache (self w)
    /\ exists tr, trace (m w).2 = trace w ++ tr /\ purges tr = 0%nat.

(** [pg.mode] holds one of the three values [dbState] knows. *)
Definition validMode (env : Env) : Prop :=
  pgMode env = "primary" \/ pgMode env = "follower" \/ pgMode env = "auto".

End frames.

(** ** What every run of the I/O cache keeps true *)

Module dedup.
Import iocache.

(** How many workers hold [k], dequeued and not yet prefaulted. *)
Definition holding (k : IOCacheKey) (ws : list WorkerPC) : nat :=
  length (List.filter (holds k) ws).

(** The loader is past its [select] for [k]: the key went to a worker, or
    the context was done. *)
Definition isHandOff (k : IOCacheKey) (e : Event) : bool :=
  match e with
  | EvEnqueue k' _ | EvLoaderCtxDone k' => bool_decide (k' = k)
  | _ => false
  end.

Definition handedOff (k : IOCacheKey) (evs : list Event) : Prop :=
  existsb (isHandOff k) evs = true.

(** Every store of [k]'s marker comes after a hand-off of [k]. *)
Definition storesFollowHandOffs (k : IOCacheKey) (evs : list Event) : Prop :=
  forall pre ttl post, evs = pre ++ EvStore k ttl :: post -> handedOff k pre.

(** What an event is to the loader calls for [k]. *)
Inductive LoaderStep : Type := Started | HandedOff | Stored.

Definition loaderStep (k : IOCacheKey) (e : Event) : option LoaderStep :=
  match e with
  | EvLoad k' => if bool_decide (k' = k) then Some Started else None
  | EvEnqueue k' _ | EvLoaderCtxDone k' =>
      if bool_decide (k' = k) then Some HandedOff else None
  | EvStore k' _ => if bool_decide (k' = k) then Some Stored else None
  | _ => None
  end.

(** The order within a loader call: started, handed off, stored, and
    only then the next call.  The outer [None] is a break of that
    order. *)
Definition loaderNext (pc : option LoaderPC) (st : LoaderStep) : option (option LoaderPC) :=
  match pc, st with
  | None, Started => Some (Some AtSelect)
  | Some AtSelect, HandedOff => Some (Some AtReturn)
  | Some AtReturn, Stored => Some None
  | _, _ => None
  end.

(** Where the loader call for [k] stands after the events [evs], having
    stood at [pc] before them; [None] when [evs] breaks the order. *)
Fixpoint loaderCalls (k : IOCacheKey) (pc : option LoaderPC) (evs : list Event)
    : option (option LoaderPC) :=
  match evs with
  | [] => Some pc
  | e :: evs' =>
      match loaderStep k e with
      | None => loaderCalls k pc evs'
      | Some st =>
          match loaderNext pc st with
          | Some pc' => loaderCalls k pc' evs'
          | None => None
          end
      end
  end.

(** The history of [k] is in order and ends where the loader stands. *)
Definition inOrder (k : IOCacheKey) (ioc : IOCache) : Prop :=
  loaderCalls k None (events ioc) = Some (loaders ioc !! k).

(** Events that neither hand [k] to a worker, nor prefault it, nor store
    its marker. *)
Definition quiet (k : IOCacheKey) (new : list Event) : Prop :=
  enqueues k new = 0%nat /\ prefaults k new = 0%nat
  /\ forall pre ttl post, new <> pre ++ EvStore k ttl :: post.

Record Inv (k : IOCacheKey) (ioc : IOCache) : Prop := {
  (** a key whose loader is in flight has no marker *)
  inv_loading : is_Some (loaders ioc !! k) -> k ∉ c ioc;
  (** every hand-over to a worker is held or was prefaulted *)
  inv_prefaults :
    (prefaults k (events ioc) + holding k (workers ioc))%nat = enqueues k (events ioc);
  (** while the marker is kept: no hand-over, or one, whose marker is
      there or about to be stored *)
  inv_enqueued :
    markerKept k (events ioc) ->
    enqueues k (events ioc) = 0%nat
    \/ (enqueues k (events ioc) = 1%nat
        /\ (k ∈ c ioc \/ loaders ioc !! k = Some AtReturn));
  (** a loader about to return has handed off *)
  inv_returning : loaders ioc !! k = Some AtReturn -> handedOff k (events ioc);
  inv_stores : storesFollowHandOffs k (events ioc)
}.

End dedup.

(** * Properties of the agent's database accessors *)

(** Projects the fields out of an updated [IOCache]. *)
Ltac fields :=
  cbn [iocache.events iocache.c iocache.loaders iocache.workers iocache.ctxDone
       iocache.cfg iocache.fhCache iocache.emit iocache.set_c iocache.set_loaders
       iocache.set_workers iocache.set_fhCache iocache.set_ctxDone] in *.

(** Runs the monad's plumbing in the goal. *)
Ltac run_M :=
  unfold mbind, mret, agent.M_bind, agent.M_ret, agent.getTrace, agent.getSelf,
    agent.emit, agent.modifySelf, agent.panic; cbn.

(** Takes a step apart into the cases of its definition. *)
Ltac step_cases Hstep :=
  cbn [iocache.step] in Hstep;
  unfold iocache.GetIFPresent, iocache.loaderSend, iocache.loaderCtxDone,
    iocache.loaderReturn, iocache.workerPrefault, iocache.workerCtxDone,
    iocache.expire, iocache.evict, iocache.Purge in Hstep;
  repeat case_match; simplify_eq; cbn [fst] in *; fields.

Section AgentAccessors.
Import agent.
Variable env : Env.

(** [dbState] leaves the agent alone and issues the recovery check at
    the most. *)
Lemma dbState_effect (w : World) :
  self (dbState env w).2 = self w
  /\ (trace (dbState env w).2 = trace w
      \/ trace (dbState env w).2
         = trace w ++ [EvQueryRowEx "SELECT pg_is_in_recovery()"]).
Proof.
  unfold dbState.
  destruct (String.eqb (pgMode env) "primary"); [by auto|].
  destruct (String.eqb (pgMode env) "follower"); [by auto|].
  destruct (String.eqb (pgMode env) "auto"); [|by auto].
  run_M. destruct (pg_is_in_recovery env (trace w)) as [e|[|]]; cbn; auto.
Qed.

(** An error of [dbState] is never nil when the state is unknown, and
    the state is known when the error is nil. *)
Lemma dbState_known (w : World) (st : _DBState) (w' : World) :
  dbState env w = (Returns (st, None), w') -> st <> _DBStateUnknown.
Proof.
  unfold dbState.
  destruct (String.eqb (pgMode env) "primary"); [by inversion 1|].
  destruct (String.eqb (pgMode env) "follower"); [by inversion 1|].
  destruct (String.eqb (pgMode env) "auto"); [|by inversion 1].
  run_M. destruct (pg_is_in_recovery env (trace w)) as [e|[|]]; cbn; by inversion 1.
Qed.

(** Zero rows and no failure: the NaN the variable was initialised with
    is what gets converted, and the error is nil. *)
Lemma queryLag_no_rows (lagQuery : _QueryLag) (sql : string) (w : World) :
  queryLag_sql env lagQuery = Some sql ->
  QueryEx env (trace w) sql = QueryRows [] None ->
  (queryLag env lagQuery w).1 = Returns (int64_unrepresentable env NaN, None).
Proof.
  intros Hsql Hq. unfold queryLag. rewrite Hsql. run_M. by rewrite Hq.
Qed.

Lemma queryLag_rows_ok (rs : list LagRow) (row : LagRow) (vars : LagVars) :
  exists n,
    queryLag_rows (map ScanOK (rs ++ [row])) vars
    = inr {| lv_err := None; lv_row := row; lv_numRows := n |}.
Proof.
  revert vars. induction rs as [|r rs IH]; intros vars; cbn.
  - by eexists.
  - apply IH.
Qed.

Lemma queryLag_rows_err (rs : list LagRow) (vars : LagVars) :
  lv_err vars = None ->
  exists vars', queryLag_rows (map ScanOK rs) vars = inr vars' /\ lv_err vars' = None.
Proof.
  revert vars. induction rs as [|r rs IH]; intros vars Hv; cbn.
  - by exists vars.
  - by apply IH.
Qed.

Lemma queryLag_rows_fails (rows : list ScanResult) (vars : LagVars) :
  (exists e, ScanFails e ∈ rows) -> exists e, queryLag_rows rows vars = inl e.
Proof.
  revert vars. induction rows as [|[r|e'] rows IH]; intros vars [e He]; cbn.
  - by apply elem_of_nil in He.
  - apply elem_of_cons in He as [He|He]; [discriminate|]. apply IH. by exists e.
  - by exists e'.
Qed.

(** C6.  When the lag query fails to execute, or a row fails to scan,
    [queryLag] returns [math.MaxInt64] and a non-nil error; when the
    query succeeds, delivers a row or more, every row scans and
    [rows.Err()] is nil, it returns nil and the visibility lag of the
    last row scanned, converted to [Base2Bytes]: the lag with its
    fraction dropped, whenever that is an [int64]. *)
Theorem queryLag_sentinel_on_failure (lagQuery : _QueryLag) (sql : string) (w : World) :
  queryLag_sql env lagQuery = Some sql ->
  (forall e, QueryEx env (trace w) sql = QueryFails e ->
     exists err, (queryLag env lagQuery w).1 = Returns (MaxInt64, Some err))
  /\ (forall rows rowsErr e,
        QueryEx env (trace w) sql = QueryRows rows rowsErr ->
        ScanFails e ∈ rows ->
        exists err, (queryLag env lagQuery w).1 = Returns (MaxInt64, Some err))
  /\ (forall rs row,
        QueryEx env (trace w) sql = QueryRows (map ScanOK (rs ++ [row])) None ->
        (queryLag env lagQuery w).1
        = Returns (Base2Bytes_of_float64 env (visibilityLagBytes row), None)
        /\ forall z, float64_trunc (visibilityLagBytes row) = Some z ->
                     (MinInt64 <= z <= MaxInt64)%Z ->
                     Base2Bytes_of_float64 env (visibilityLagBytes row) = z).
Proof.
  intros Hsql. unfold queryLag. rewrite Hsql. run_M. repeat split.
  - intros e ->. by eexists.
  - intros rows rowsErr e -> He.
    destruct (queryLag_rows_fails rows LagVars_init) as [e' ->]; [by exists e|].
    by eexists.
  - rewrite H. destruct (queryLag_rows_ok rs row LagVars_init) as [n ->]. done.
  - intros z Hz [Hlo Hhi]. unfold Base2Bytes_of_float64. rewrite Hz.
    apply Z.leb_le in Hlo, Hhi. by rewrite Hlo, Hhi.
Qed.

(** C9, what the code does where the claim fails: the query ran, every
    row scanned, and [rows.Err()] is not nil.  The error wrapped is the
    variable [err], which is nil at that point, and wrapping nil gives
    nil: the sentinel comes back with a nil error. *)
Theorem queryLag_iteration_failure_nil_error
    (lagQuery : _QueryLag) (sql : string) (w : World) (rs : list LagRow) (e : error_value) :
  queryLag_sql env lagQuery = Some sql ->
  QueryEx env (trace w) sql = QueryRows (map ScanOK rs) (Some e) ->
  (queryLag env lagQuery w).1 = Returns (MaxInt64, None).
Proof.
  intros Hsql Hq. unfold queryLag. rewrite Hsql. run_M. rewrite Hq.
  destruct (queryLag_rows_err rs LagVars_init eq_refl) as [vars' [-> Herr]].
  by rewrite Herr.
Qed.

(** C4.  When [dbState] reports the primary, [predictDBWALFilenames]
    returns the empty list and nil, in the very world [dbState] left: the
    agent is untouched and the only thing issued, if anything, is the
    recovery check of [dbState] itself; no lag query, no parse of the
    file name, no readahead. *)
Theorem predictDBWALFilenames_primary_noop (walFile : WALFilename) (w w' : World) :
  dbState env w = (Returns (_DBStatePrimary, None), w') ->
  predictDBWALFilenames env walFile w = (Returns (Some [], None), w')
  /\ self w' = self w
  /\ (trace w' = trace w
      \/ trace w' = trace w ++ [EvQueryRowEx "SELECT pg_is_in_recovery()"]).
Proof.
  intros H. split.
  - unfold predictDBWALFilenames. unfold mbind at 1. unfold M_bind at 1.
    by rewrite H.
  - pose proof (dbState_effect w) as He. by rewrite H in He.
Qed.

(** C10.  When [dbState] fails, [predictDBWALFilenames] returns the
    one-element list of the file name it was given, and that same
    error; it logs the failure and does nothing else. *)
Theorem predictDBWALFilenames_dbState_error
    (walFile : WALFilename) (w w' : World) (st : _DBState) (e : error_value) :
  dbState env w = (Returns (st, Some e), w') ->
  predictDBWALFilenames env walFile w
  = (Returns (Some [walFile], Some e),
     {| self := self w';
        trace := trace w' ++ [EvLog LevelError
                    "unable to determine if database is primary or not, retrying"] |}).
Proof.
  intros H. unfold predictDBWALFilenames. unfold mbind at 1. unfold M_bind at 1.
  by rewrite H.
Qed.

(** C5.  For a follower whose lag query and file-name parse succeed, the
    byte count handed to the readahead is the smaller of the configured
    readahead and the visibility lag [queryLag] returned, and the
    result is that readahead. *)
Theorem predictDBWALFilenames_clamps_readahead
    (walFile : WALFilename) (w w1 w2 : World) (lag : Base2Bytes)
    (timelineID : TimelineID) (lsn : LSN) :
  dbState env w = (Returns (_DBStateFollower, None), w1) ->
  queryLag env _QueryLagFollower w1 = (Returns (lag, None), w2) ->
  ParseWalfile env walFile = (timelineID, lsn, None) ->
  let maxBytes := Z.min (ReadaheadBytes env) lag in
  predictDBWALFilenames env walFile w
  = (Returns (LSN_Readahead env lsn timelineID maxBytes, None),
     {| self := self w2;
        trace := trace w2 ++ [EvParseWalfile walFile;
                              EvReadahead lsn timelineID maxBytes] |}).
Proof.
  intros Hs Hl Hp maxBytes. unfold predictDBWALFilenames.
  unfold mbind at 1. unfold M_bind at 1. rewrite Hs.
  unfold mbind at 1. unfold M_bind at 1. rewrite Hl.
  rewrite Hp. run_M. rewrite <- app_assoc. cbn.
  subst maxBytes. rewrite Z.gtb_ltb.
  destruct (Z.ltb_spec lag (ReadaheadBytes env));
    [rewrite Z.min_r by lia | rewrite Z.min_l by lia]; done.
Qed.

End AgentAccessors.

Section AgentAccessorsAtWork.
Import agent examples.

(** C6 at work: a failed query, a failed scan, and a row with a lag of
    4096 bytes. *)
Lemma queryLag_sentinel_on_failure_witness :
  (queryLag_sql (follower (QueryFails (errorNew "broken pipe"))) _QueryLagFollower
   = Some sqlFollower
   /\ exists err,
       (queryLag (follower (QueryFails (errorNew "broken pipe")))
          _QueryLagFollower (worldAt 7)).1
       = Returns (MaxInt64, Some err))
  /\ (exists err,
        (queryLag (follower (QueryRows [ScanFails (errorNew "bad column")] None))
           _QueryLagFollower (worldAt 7)).1
        = Returns (MaxInt64, Some err))
  /\ (queryLag (follower (QueryRows [ScanOK (lagRow float4096)] None))
        _QueryLagFollower (worldAt 7)).1
     = Returns (4096%Z, None).
Proof.
  split; [split; [reflexivity|]|split].
  - destruct (queryLag_sentinel_on_failure
                (follower (QueryFails (errorNew "broken pipe")))
                _QueryLagFollower sqlFollower (worldAt 7) eq_refl) as (H & _ & _).
    exact (H (errorNew "broken pipe") eq_refl).
  - destruct (queryLag_sentinel_on_failure
                (follower (QueryRows [ScanFails (errorNew "bad column")] None))
                _QueryLagFollower sqlFollower (worldAt 7) eq_refl) as (_ & H & _).
    apply (H [ScanFails (errorNew "bad column")] None (errorNew "bad column") eq_refl).
    apply list_elem_of_here.
  - destruct (queryLag_sentinel_on_failure
                (follower (QueryRows [ScanOK (lagRow float4096)] None))
                _QueryLagFollower sqlFollower (worldAt 7) eq_refl) as (_ & _ & H).
    destruct (H [] (lagRow float4096) eq_refl) as [Hret _].
    exact Hret.
Defined.

(** C9 at work: no row, and [rows.Err()] reports a lost connection. *)
Lemma queryLag_iteration_failure_nil_error_witness :
  QueryEx (follower (QueryRows [] (Some (errorNew "connection reset")))) [] sqlFollower
  = QueryRows (map ScanOK []) (Some (errorNew "connection reset"))
  /\ (queryLag (follower (QueryRows [] (Some (errorNew "connection reset"))))
        _QueryLagFollower (worldAt 7)).1
     = Returns (MaxInt64, None).
Proof.
  split; [reflexivity|].
  exact (queryLag_iteration_failure_nil_error
           (follower (QueryRows [] (Some (errorNew "connection reset"))))
           _QueryLagFollower sqlFollower (worldAt 7) [] (errorNew "connection reset")
           eq_refl eq_refl).
Defined.

(** C4 at work, in mode [auto] with PostgreSQL out of recovery. *)
Lemma predictDBWALFilenames_primary_noop_witness :
  (predictDBWALFilenames (envWith "auto" (inr false) (QueryRows [] None) 8)
     walAB (worldAt 7)).1
  = Returns (Some [], None).
Proof.
  exact (f_equal fst
           (proj1 (predictDBWALFilenames_primary_noop
                     (envWith "auto" (inr false) (QueryRows [] None) 8) walAB
                     (worldAt 7) _ eq_refl))).
Defined.

(** C10 at work: the recovery check fails. *)
Lemma predictDBWALFilenames_dbState_error_witness :
  (predictDBWALFilenames
     (envWith "auto" (inl (errorNew "connection refused")) (QueryRows [] None) 8)
     walAB (worldAt 7)).1
  = Returns (Some [walAB],
             Some (errorWrap (errorNew "connection refused")
                     "unable to execute primary check")).
Proof.
  exact (f_equal fst
           (predictDBWALFilenames_dbState_error
              (envWith "auto" (inl (errorNew "connection refused")) (QueryRows [] None) 8)
              walAB (worldAt 7) _ _DBStateUnknown _ eq_refl)).
Defined.

(** C5 at work: a lag of 4096 bytes under a configured readahead of
    32 MiB clamps the readahead to 4096. *)
Lemma predictDBWALFilenames_clamps_readahead_witness :
  trace (predictDBWALFilenames
           (envWith "auto" (inr true) (QueryRows [ScanOK (lagRow float4096)] None) 8)
           walAB (worldAt 7)).2
  = [EvQueryRowEx "SELECT pg_is_in_recovery()"; EvQueryEx sqlFollower;
     EvParseWalfile walAB; EvReadahead 11458838528 8 4096%Z].
Proof.
  exact (f_equal (fun r => trace r.2)
           (predictDBWALFilenames_clamps_readahead
              (envWith "auto" (inr true) (QueryRows [ScanOK (lagRow float4096)] None) 8)
              walAB (worldAt 7) _ _ 4096%Z 8 11458838528 eq_refl eq_refl eq_refl)).
Defined.

End AgentAccessorsAtWork.

(** * The timeline and the caches *)

Section Timeline.
Import agent frames.
Variable env : Env.

Lemma purges_app (tr1 tr2 : list Event) :
  purges (tr1 ++ tr2) = (purges tr1 + purges tr2)%nat.
Proof. unfold purges. by rewrite List.filter_app, length_app. Qed.

Lemma keepsCaches_ret {A : Type} (a : A) : keepsCaches (mret a).
Proof. intros w. run_M. repeat split. exists []. by rewrite app_nil_r. Qed.

Lemma keepsCaches_panic {A : Type} (p : PanicValue) : keepsCaches (panic (A := A) p).
Proof. intros w. run_M. repeat split. exists []. by rewrite app_nil_r. Qed.

Lemma keepsCaches_bind {A B : Type} (m : M A) (f : A -> M B) :
  keepsCaches m -> (forall a, keepsCaches (f a)) -> keepsCaches (m ≫= f).
Proof.
  intros Hm Hf w. destruct (Hm w) as (Ht & Hc & tr & Htr & Hp).
  unfold mbind, M_bind. destruct (m w) as [[a|p] w1]; cbn in *.
  - destruct (Hf a w1) as (Ht' & Hc' & tr' & Htr' & Hp').
    rewrite Ht', Hc', Htr', Htr. repeat split; [done..|].
    exists (tr ++ tr'). rewrite app_assoc, purges_app. split; [done|lia].
  - repeat split; [done..|]. by exists tr.
Qed.

Lemma keepsCaches_getSelf : keepsCaches getSelf.
Proof. intros w. run_M. repeat split. exists []. by rewrite app_nil_r. Qed.

Lemma keepsCaches_getTrace : keepsCaches getTrace.
Proof. intros w. run_M. repeat split. exists []. by rewrite app_nil_r. Qed.

Lemma keepsCaches_emit (e : Event) : isPurge e = false -> keepsCaches (emit e).
Proof.
  intros He w. run_M. repeat split. exists [e]. split; [done|].
  unfold purges. cbn. by rewrite He.
Qed.

Lemma keepsCaches_modifySelf (f : Agent -> Agent) :
  (forall a, lastTimelineID (f a) = lastTimelineID a /\ walCache (f a) = walCache a) ->
  keepsCaches (modifySelf f).
Proof.
  intros Hf w. run_M. destruct (Hf (self w)) as [-> ->]. repeat split.
  exists []. by rewrite app_nil_r.
Qed.

Lemma keepsCaches_dbState : keepsCaches (dbState env).
Proof.
  unfold dbState.
  destruct (String.eqb (pgMode env) "primary"); [apply keepsCaches_ret|].
  destruct (String.eqb (pgMode env) "follower"); [apply keepsCaches_ret|].
  destruct (String.eqb (pgMode env) "auto"); [|apply keepsCaches_panic].
  apply keepsCaches_bind; [apply keepsCaches_getTrace|]. intros tr.
  apply keepsCaches_bind; [by apply keepsCaches_emit|]. intros _.
  destruct (pg_is_in_recovery env tr) as [e|[|]]; apply keepsCaches_ret.
Qed.

Lemma keepsCaches_queryLag (lagQuery : _QueryLag) : keepsCaches (queryLag env lagQuery).
Proof.
  unfold queryLag. destruct (queryLag_sql env lagQuery) as [sql|]; [|apply keepsCaches_panic].
  apply keepsCaches_bind; [apply keepsCaches_getTrace|]. intros tr.
  apply keepsCaches_bind; [by apply keepsCaches_emit|]. intros _.
  destruct (QueryEx env tr sql) as [e|rows rowsErr]; [apply keepsCaches_ret|].
  destruct (queryLag_rows rows LagVars_init) as [e|vars]; [apply keepsCaches_ret|].
  destruct rowsErr; apply keepsCaches_ret.
Qed.

Lemma keepsCaches_predictDBWALFilenames (walFile : WALFilename) :
  keepsCaches (predictDBWALFilenames env walFile).
Proof.
  unfold predictDBWALFilenames.
  apply keepsCaches_bind; [apply keepsCaches_dbState|]. intros [st [e|]].
  { apply keepsCaches_bind; [by apply keepsCaches_emit|]. intros _. apply keepsCaches_ret. }
  destruct st; [apply keepsCaches_panic|apply keepsCaches_ret|].
  apply keepsCaches_bind; [apply keepsCaches_queryLag|]. intros [lag [e|]].
  { apply keepsCaches_ret. }
  apply keepsCaches_bind; [by apply keepsCaches_emit|]. intros _.
  destruct (ParseWalfile env walFile) as [[timelineID lsn] [e|]]; [apply keepsCaches_ret|].
  apply keepsCaches_bind; [by apply keepsCaches_emit|]. intros _. apply keepsCaches_ret.
Qed.

Lemma keepsCaches_observeWALFile (walFile : WALFilename) (numWALFiles : N) :
  keepsCaches (observeWALFile walFile numWALFiles).
Proof.
  unfold observeWALFile. apply keepsCaches_bind; [apply keepsCaches_getSelf|]. intros a.
  destruct (negb (String.eqb (lastWALLog a) walFile)); [|apply keepsCaches_ret].
  apply keepsCaches_bind; [by apply keepsCaches_modifySelf|]. intros _. apply keepsCaches_ret.
Qed.

Lemma keepsCaches_getWALFilesDB_loop (timelineID : TimelineID) (oldLSNs : list LSN) :
  forall numWALFiles walFiles,
    keepsCaches (getWALFilesDB_loop env timelineID oldLSNs numWALFiles walFiles).
Proof.
  induction oldLSNs as [|oldLSN rest IH]; intros numWALFiles walFiles; cbn [getWALFilesDB_loop].
  - apply keepsCaches_ret.
  - apply keepsCaches_bind; [by apply keepsCaches_emit|]. intros _.
    apply keepsCaches_bind; [apply keepsCaches_observeWALFile|]. intros numWALFiles'.
    apply keepsCaches_bind; [apply keepsCaches_predictDBWALFilenames|]. intros [predicted [e|]].
    + apply keepsCaches_bind; [by apply keepsCaches_emit|]. intros _. apply IH.
    + apply IH.
Qed.

Lemma keepsCaches_ensureDBPool : keepsCaches (ensureDBPool env).
Proof.
  unfold ensureDBPool. apply keepsCaches_bind; [apply keepsCaches_getSelf|]. intros a.
  destruct (pool a); [apply keepsCaches_ret|].
  apply keepsCaches_bind; [apply keepsCaches_getTrace|]. intros tr.
  apply keepsCaches_bind; [by apply keepsCaches_emit|]. intros _.
  destruct (NewConnPool env tr); [apply keepsCaches_ret|].
  apply keepsCaches_bind; [by apply keepsCaches_modifySelf|]. intros _. apply keepsCaches_ret.
Qed.

Lemma bind_returns {A B : Type} (m : M A) (f : A -> M B) (w w1 : World) (a : A) :
  m w = (Returns a, w1) -> (m ≫= f) w = f a w1.
Proof. intros H. unfold mbind, M_bind. by rewrite H. Qed.

(** The closure of lines 208-219 always returns; it purges when the
    timeline differs from a last one that is not zero, and records the
    timeline. *)
Lemma observeTimeline_returns (timelineID : TimelineID) (w : World) :
  let changed := negb (lastTimelineID (self w) =? timelineID) in
  let known := negb (lastTimelineID (self w) =? 0) in
  observeTimeline timelineID w
  = (Returns tt,
     {| self :=
          if changed then
            set_lastTimelineID timelineID
              (if known then set_walCache (WALCache_Purge (walCache (self w))) (self w)
               else self w)
          else self w;
        trace := trace w ++ (if changed && known then [EvWALCachePurge] else []) |}).
Proof.
  unfold observeTimeline. run_M.
  destruct (lastTimelineID (self w) =? timelineID); cbn.
  - rewrite app_nil_r. by destruct w.
  - destruct (lastTimelineID (self w) =? 0); cbn; [|done].
    by rewrite app_nil_r.
Qed.

(** C3.  A pass of [getWALFilesDB] whose pool is there and to which
    PostgreSQL reports [timelineID]:
    - ends with [timelineID] as the timeline last seen, whatever the
      rest of the pass does;
    - when the timeline last seen differs from it and is not zero, purges
      once: the purge is the first thing after the query, ahead of
      everything done for the LSNs of the new timeline, nothing after it
      purges again, and the I/O cache ends as [Purge] leaves it, with no
      marker and no file handle;
    - when the timeline last seen is zero, or the same, purges nothing
      and leaves the caches as they were. *)
Theorem getWALFilesDB_timeline_purge
    (w w0 : World) (timelineID : TimelineID) (oldLSNs : list LSN) :
  ensureDBPool env w = (Returns None, w0) ->
  QueryOldestLSNs env (trace w0) = (timelineID, oldLSNs, None) ->
  let w' := (getWALFilesDB env w).2 in
  let ioc := ioCache (walCache (self w)) in
  let ioc' := ioCache (walCache (self w')) in
  lastTimelineID (self w') = timelineID
  /\ (lastTimelineID (self w) <> timelineID ->
      lastTimelineID (self w) <> 0 ->
      (exists post,
         trace w' = trace w0 ++ [EvQueryOldestLSNs; EvWALCachePurge] ++ post
         /\ purges post = 0%nat)
      /\ ioc' = iocache.Purge ioc
      /\ iocache.c ioc' = ∅
      /\ iocache.fhCache ioc' = []
      /\ iocache.events ioc' = iocache.events ioc ++ [iocache.EvPurge])
  /\ (lastTimelineID (self w) = 0 \/ lastTimelineID (self w) = timelineID ->
      (exists post,
         trace w' = trace w0 ++ [EvQueryOldestLSNs] ++ post /\ purges post = 0%nat)
      /\ walCache (self w') = walCache (self w)).
Proof.
  intros Hpool Hquery w' ioc ioc'.
  assert (Hw0 : lastTimelineID (self w0) = lastTimelineID (self w)
                /\ walCache (self w0) = walCache (self w)).
  { pose proof (keepsCaches_ensureDBPool w) as (Ht & Hc & _).
    rewrite Hpool in Ht, Hc. done. }
  destruct Hw0 as [Hlast Hcache].
  set (w1 := {| self := self w0; trace := trace w0 ++ [EvQueryOldestLSNs] |}).
  set (rest := getWALFilesDB_loop env timelineID oldLSNs 0 []
               ≫= (fun walFiles => mret (M := M) (Some walFiles, None : error))).
  assert (Hrun : w' = (rest (observeTimeline timelineID w1).2).2).
  { subst w'. unfold getWALFilesDB.
    rewrite (bind_returns _ _ _ _ _ Hpool).
    rewrite (bind_returns getTrace _ w0 w0 (trace w0) eq_refl).
    rewrite (bind_returns (emit EvQueryOldestLSNs) _ w0 w1 tt eq_refl).
    rewrite Hquery.
    rewrite (bind_returns _ _ _ _ _ (observeTimeline_returns timelineID w1)).
    by rewrite observeTimeline_returns. }
  assert (Hrest : keepsCaches rest).
  { apply keepsCaches_bind; [apply keepsCaches_getWALFilesDB_loop|].
    intros walFiles. apply keepsCaches_ret. }
  destruct (Hrest (observeTimeline timelineID w1).2) as (Ht & Hc & post & Htr & Hp).
  rewrite <- Hrun in Ht, Hc, Htr. rewrite observeTimeline_returns in Ht, Hc, Htr.
  cbn [snd self trace w1] in Ht, Hc, Htr. rewrite Hlast in Ht, Hc, Htr.
  split; [|split].
  - rewrite Ht. destruct (N.eqb_spec (lastTimelineID (self w)) timelineID) as [Heq|Hne];
      cbn; [by rewrite Hlast|done].
  - intros Hne Hnz.
    apply N.eqb_neq in Hne, Hnz. rewrite Hne, Hnz in Hc, Htr. cbn in Hc, Htr.
    split; [|subst ioc ioc'; rewrite Hc, Hcache; done].
    exists post. split; [|done]. rewrite Htr. by rewrite <- !app_assoc.
  - intros Hsame.
    assert (Hno : negb (lastTimelineID (self w) =? timelineID)
                  && negb (lastTimelineID (self w) =? 0) = false).
    { destruct Hsame as [Hz|Heq].
      - rewrite Hz. cbn. apply andb_false_r.
      - rewrite Heq, N.eqb_refl. done. }
    rewrite Hno in Htr. split.
    + exists post. split; [|done]. rewrite Htr. rewrite app_nil_r. by rewrite <- app_assoc.
    + rewrite Hc, <- Hcache.
      destruct (N.eqb_spec (lastTimelineID (self w)) timelineID) as [Heq|Hne]; cbn; [done|].
      destruct Hsame as [Hz|Heq]; [|done]. by rewrite Hz.
Qed.

End Timeline.

(** C3 at work: the agent last saw timeline 7 and PostgreSQL reports 8. *)
Lemma getWALFilesDB_timeline_purge_witness :
  let env := examples.envWith "auto" (inr true)
               (agent.QueryRows [agent.ScanOK (examples.lagRow examples.float4096)] None) 8 in
  let w' := (agent.getWALFilesDB env (examples.worldAt 7)).2 in
  agent.lastTimelineID (agent.self w') = 8
  /\ iocache.c (agent.ioCache (agent.walCache (agent.self w'))) = ∅
  /\ iocache.fhCache (agent.ioCache (agent.walCache (agent.self w'))) = []
  /\ exists post,
       agent.trace w' = [agent.EvQueryOldestLSNs; agent.EvWALCachePurge] ++ post
       /\ frames.purges post = 0%nat.
Proof.
  intros env w'.
  destruct (getWALFilesDB_timeline_purge env (examples.worldAt 7) (examples.worldAt 7)
              8 [11458838528] eq_refl eq_refl) as (Hlast & Hpurge & _).
  destruct Hpurge as (Htrace & _ & Hc & Hfh & _); [done|done|].
  split; [exact Hlast|]. split; [exact Hc|]. split; [exact Hfh|]. exact Htrace.
Defined.

(** * PG_VERSION: numerals, lines, and the normalised version *)

Section Numerals.
Import agent numerals.

Lemma isDigit_spec (ch : ascii) :
  isDigit ch = true -> 48 <= N_of_ascii ch <= 57.
Proof. unfold isDigit. intros [H1%N.leb_le H2%N.leb_le]%andb_prop. lia. Qed.

Lemma isDigit_not_dot (ch : ascii) : isDigit ch = true -> Ascii.eqb ch "." = false.
Proof.
  intros H%isDigit_spec. apply Ascii.eqb_neq. intros ->. cbn in H. lia.
Qed.

Lemma isDigit_oneLine (ch : ascii) :
  isDigit ch = true ->
  Ascii.eqb ch newline = false /\ Ascii.eqb ch carriageReturn = false.
Proof.
  intros H%isDigit_spec. split; apply Ascii.eqb_neq; intros ->; cbn in H; lia.
Qed.

Lemma digit_char (d : N) :
  d < 10 ->
  isDigit (ascii_of_N (48 + d)) = true /\ N_of_ascii (ascii_of_N (48 + d)) - 48 = d.
Proof.
  intros Hd. rewrite N_ascii_embedding by lia. unfold isDigit.
  rewrite N_ascii_embedding by lia. split; [|lia].
  apply andb_true_intro. split; apply N.leb_le; lia.
Qed.

(** *** Strings and append *)

Lemma append_cons (ch : ascii) (s t : string) :
  (String ch s ++ t)%string = String ch (s ++ t)%string.
Proof. reflexivity. Qed.

Lemma append_nil (t : string) : (EmptyString ++ t)%string = t.
Proof. reflexivity. Qed.

Lemma append_assoc (s t u : string) :
  ((s ++ t) ++ u)%string = (s ++ (t ++ u))%string.
Proof.
  induction s as [|ch s IH]; [done|]. rewrite !append_cons. by rewrite IH.
Qed.

Lemma allDigits_app (s t : string) :
  allDigits (s ++ t)%string = allDigits s && allDigits t.
Proof.
  induction s as [|ch s IH]; [done|].
  rewrite append_cons. cbn. rewrite IH. by rewrite andb_assoc.
Qed.

Lemma decimalValue_app (s t : string) (acc : N) :
  decimalValue (s ++ t)%string acc = decimalValue t (decimalValue s acc).
Proof.
  revert acc. induction s as [|ch s IH]; intros acc; [done|].
  rewrite append_cons. cbn. apply IH.
Qed.

Lemma decimalValue_acc (s : string) (acc : N) :
  decimalValue s acc = acc * 10 ^ N.of_nat (String.length s) + decimalValue s 0.
Proof.
  revert acc. induction s as [|ch s IH]; intros acc.
  - cbn. lia.
  - cbn [decimalValue String.length]. rewrite IH. rewrite (IH (0 * 10 + _)).
    rewrite Nat2N.inj_succ, N.pow_succ_r'. lia.
Qed.

Lemma decimalValue_bound (s : string) :
  allDigits s = true -> decimalValue s 0 < 10 ^ N.of_nat (String.length s).
Proof.
  induction s as [|ch s IH]; [cbn; lia|]. intros Hd. cbn in Hd.
  apply andb_prop in Hd as [Hch Hs]. apply isDigit_spec in Hch.
  cbn [decimalValue String.length]. rewrite decimalValue_acc.
  rewrite Nat2N.inj_succ, N.pow_succ_r'. specialize (IH Hs). nia.
Qed.

Lemma length_append (s t : string) :
  String.length (s ++ t)%string = (String.length s + String.length t)%nat.
Proof.
  induction s as [|ch s IH]; [done|]. rewrite append_cons. cbn. by rewrite IH.
Qed.

Lemma decimalValue_ge (s : string) (acc : N) : acc <= decimalValue s acc.
Proof.
  rewrite decimalValue_acc.
  assert (10 ^ N.of_nat (String.length s) <> 0) by (apply N.pow_nonzero; lia).
  nia.
Qed.

(** *** [strconv.ParseUint] on a string of digits *)

Lemma ParseUint_loop_digits (s : string) (acc maxVal : N) :
  allDigits s = true ->
  maxVal < 2 ^ 32 ->
  decimalValue s acc <= maxVal ->
  ParseUint_loop s acc ((two64 - 1) / 10 + 1) maxVal = (decimalValue s acc, None).
Proof.
  assert (Hcut : (two64 - 1) / 10 + 1 = 1844674407370955162) by reflexivity.
  rewrite Hcut. intros Hd Hmax. revert acc Hd.
  induction s as [|ch s IH]; intros acc Hd Hv; [done|].
  cbn in Hd. apply andb_prop in Hd as [Hch Hs].
  cbn [ParseUint_loop decimalValue] in *. rewrite Hch.
  apply isDigit_spec in Hch.
  pose proof (decimalValue_ge s (acc * 10 + (N_of_ascii ch - 48))) as Hge.
  assert (Hlt : (1844674407370955162 <=? acc) = false) by (apply N.leb_gt; lia).
  rewrite Hlt. unfold two64.
  rewrite (N.mod_small (acc * 10)) by lia.
  rewrite (N.mod_small (acc * 10 + _)) by lia.
  assert (Hok : ((acc * 10 + (N_of_ascii ch - 48) <? acc * 10)
                 || (maxVal <? acc * 10 + (N_of_ascii ch - 48))) = false).
  { apply orb_false_intro; apply N.ltb_ge; lia. }
  rewrite Hok. by apply IH.
Qed.

Lemma strconv_ParseUint_digits (s : string) :
  allDigits s = true ->
  s <> EmptyString ->
  decimalValue s 0 <= 4294967295 ->
  strconv_ParseUint s 32 = (decimalValue s 0, None).
Proof.
  intros Hd Hne Hv. unfold strconv_ParseUint. destruct s as [|ch s]; [done|].
  by rewrite ParseUint_loop_digits; [|done|reflexivity|apply Hv].
Qed.

(** *** [%d] *)

Lemma formatDigits_acc (fuel : nat) (n : N) (acc : string) :
  formatDigits fuel n acc = (formatDigits fuel n EmptyString ++ acc)%string.
Proof.
  revert n acc. induction fuel as [|fuel IH]; intros n acc; [done|].
  cbn [formatDigits]. destruct (n <? 10); [done|].
  rewrite IH. rewrite (IH _ (String _ EmptyString)). by rewrite append_assoc.
Qed.

Lemma formatDigits_allDigits (fuel : nat) (n : N) :
  allDigits (formatDigits fuel n EmptyString) = true.
Proof.
  revert n. induction fuel as [|fuel IH]; intros n; [done|].
  cbn [formatDigits].
  assert (Hch : isDigit (ascii_of_N (48 + n mod 10)) = true).
  { apply digit_char. apply N.mod_lt. lia. }
  destruct (n <? 10); [cbn; by rewrite Hch|].
  rewrite formatDigits_acc, allDigits_app, IH. cbn. by rewrite Hch.
Qed.

Lemma formatDigits_value (fuel : nat) (n : N) :
  n < 10 ^ N.of_nat fuel ->
  decimalValue (formatDigits fuel n EmptyString) 0 = n.
Proof.
  revert n. induction fuel as [|fuel IH]; intros n Hn; [cbn in *; lia|].
  cbn [formatDigits].
  assert (Hch : N_of_ascii (ascii_of_N (48 + n mod 10)) - 48 = n mod 10).
  { apply digit_char. apply N.mod_lt. lia. }
  destruct (N.ltb_spec n 10) as [Hlt|Hge].
  - cbn. rewrite Hch. rewrite N.mod_small by done. lia.
  - rewrite formatDigits_acc, decimalValue_app. cbn. rewrite Hch.
    rewrite IH.
    + pose proof (N.div_mod n 10). lia.
    + rewrite Nat2N.inj_succ, N.pow_succ_r' in Hn.
      apply N.Div0.div_lt_upper_bound. lia.
Qed.

Lemma formatDigits_length (fuel : nat) (n : N) (k : nat) :
  (0 < k <= fuel)%nat ->
  n < 10 ^ N.of_nat k ->
  (0 < String.length (formatDigits fuel n EmptyString) <= k)%nat.
Proof.
  revert n k. induction fuel as [|fuel IH]; intros n k Hk Hn; [lia|].
  cbn [formatDigits]. destruct (N.ltb_spec n 10) as [Hlt|Hge]; [cbn; lia|].
  rewrite formatDigits_acc, length_append. cbn.
  destruct k as [|[|k]]; [lia|cbn in Hn; lia|].
  destruct (IH (n / 10) (S k)) as [H1 H2]; [lia| |lia].
  rewrite Nat2N.inj_succ, N.pow_succ_r' in Hn.
  apply N.Div0.div_lt_upper_bound. lia.
Qed.

Lemma format_d_allDigits (n : N) : allDigits (format_d n) = true.
Proof. apply formatDigits_allDigits. Qed.

Lemma format_d_value (n : N) : n < 2 ^ 64 -> decimalValue (format_d n) 0 = n.
Proof.
  intros Hn. apply formatDigits_value.
  eapply N.lt_trans; [exact Hn|reflexivity].
Qed.

Lemma formatDigits_nonempty (fuel : nat) (n : N) :
  fuel <> 0%nat -> formatDigits fuel n EmptyString <> EmptyString.
Proof.
  destruct fuel as [|fuel]; [done|]. intros _.
  cbn [formatDigits]. destruct (n <? 10); [done|].
  rewrite formatDigits_acc. destruct (formatDigits fuel (n / 10) EmptyString); done.
Qed.

Lemma formatDigits_length_fuel (fuel : nat) (n : N) :
  (String.length (formatDigits fuel n EmptyString) <= fuel)%nat.
Proof.
  revert n. induction fuel as [|fuel IH]; intros n; [cbn; lia|].
  cbn [formatDigits]. destruct (n <? 10); [cbn; lia|].
  rewrite formatDigits_acc, length_append. cbn. specialize (IH (n / 10)). lia.
Qed.

Lemma format_d_nonempty (n : N) : format_d n <> EmptyString.
Proof. by apply formatDigits_nonempty. Qed.

Lemma format_d_length (n : N) : (String.length (format_d n) <= 20)%nat.
Proof. apply formatDigits_length_fuel. Qed.

(** *** Splitting and scanning a version line *)

Lemma strings_Split_digits (s : string) :
  allDigits s = true -> strings_Split s "." = [s].
Proof.
  induction s as [|ch s IH]; [done|]. cbn [allDigits strings_Split].
  intros [Hch Hs]%andb_prop. rewrite (isDigit_not_dot _ Hch). by rewrite IH.
Qed.

Lemma strings_Split_digits_dot (s t : string) :
  allDigits s = true ->
  strings_Split (s ++ String "." t)%string "." = s :: strings_Split t ".".
Proof.
  induction s as [|ch s IH]; [done|]. cbn [allDigits].
  intros [Hch Hs]%andb_prop. rewrite append_cons. cbn [strings_Split].
  rewrite (isDigit_not_dot _ Hch). by rewrite IH.
Qed.

Lemma oneLine_app (s t : string) : oneLine (s ++ t)%string = oneLine s && oneLine t.
Proof.
  induction s as [|ch s IH]; [done|].
  rewrite append_cons. cbn [oneLine]. rewrite IH. by rewrite !andb_assoc.
Qed.

Lemma allDigits_oneLine (s : string) : allDigits s = true -> oneLine s = true.
Proof.
  induction s as [|ch s IH]; [done|]. cbn [allDigits oneLine].
  intros [Hch Hs]%andb_prop. destruct (isDigit_oneLine _ Hch) as [-> ->].
  by rewrite IH.
Qed.

Lemma untilNewline_oneLine (line : string) (rest : option string) :
  oneLine line = true ->
  untilNewline (fileOf line rest) = (line, bool_decide (rest <> None)).
Proof.
  intros Hl. induction line as [|ch line IH].
  - destruct rest; done.
  - cbn [oneLine] in Hl. apply andb_prop in Hl as [[Hn _]%andb_prop Hl].
    apply negb_true_iff in Hn. specialize (IH Hl).
    destruct rest as [r|]; cbn [fileOf] in *.
    + rewrite append_cons. cbn [untilNewline]. rewrite Hn. by rewrite IH.
    + cbn [untilNewline]. rewrite Hn. by rewrite IH.
Qed.

Lemma dropCR_oneLine (line : string) : oneLine line = true -> dropCR line = line.
Proof.
  induction line as [|ch line IH]; [done|]. cbn [oneLine].
  intros [[_ Hc%negb_true_iff]%andb_prop Hl]%andb_prop.
  cbn [dropCR]. rewrite Hc. destruct line; [done|]. by rewrite IH.
Qed.

Lemma scanFirstLine_oneLine (line : string) (rest : option string) :
  oneLine line = true ->
  (String.length line < 100)%nat ->
  scanFirstLine (fileOf line rest) = (line, None).
Proof.
  intros Hl Hlen. unfold scanFirstLine. rewrite untilNewline_oneLine by done.
  assert (Hsmall : (N.of_nat (String.length line) <? MaxScanTokenSize) = true).
  { apply N.ltb_lt. unfold MaxScanTokenSize. lia. }
  destruct rest as [r|]; cbn [bool_decide fileOf].
  - rewrite bool_decide_true by done. rewrite Hsmall. by rewrite dropCR_oneLine.
  - rewrite bool_decide_false by (intros H; by apply H).
    rewrite Hsmall. by rewrite dropCR_oneLine.
Qed.

Lemma versionLine_oneLine (major : N) (minor : option N) :
  oneLine (versionLine major minor) = true
  /\ (String.length (versionLine major minor) < 100)%nat.
Proof.
  unfold versionLine. rewrite oneLine_app, length_append.
  rewrite (allDigits_oneLine _ (format_d_allDigits major)).
  pose proof (format_d_length major). destruct minor as [second|].
  - rewrite append_cons, append_nil. cbn [oneLine String.length].
    rewrite (allDigits_oneLine _ (format_d_allDigits second)).
    pose proof (format_d_length second). split; [done|lia].
  - cbn [oneLine String.length]. split; [done|lia].
Qed.

Lemma versionLine_parts (major : N) (minor : option N) :
  strings_Split (versionLine major minor) "."
  = format_d major :: match minor with
                      | Some second => [format_d second]
                      | None => []
                      end.
Proof.
  unfold versionLine. destruct minor as [second|].
  - rewrite append_cons, append_nil.
    rewrite strings_Split_digits_dot by apply format_d_allDigits.
    by rewrite strings_Split_digits by apply format_d_allDigits.
  - replace (format_d major ++ "")%string with (format_d major).
    + apply strings_Split_digits, format_d_allDigits.
    + induction (format_d major) as [|ch s IH]; [done|].
      rewrite append_cons. by rewrite <- IH.
Qed.

End Numerals.

Section PostgresVersion.
Import agent numerals.
Variable fs : FileSystem.
Variable pgDataPath : string.

(** A major of 10 or more: the minor, if any, is ignored and four zeros
    are appended. *)
Lemma getPostgresVersion_major (major : N) (minor : option N) (rest : option string) :
  holdsFile fs pgDataPath (fileOf (versionLine major minor) rest) ->
  10 <= major <= 429496 ->
  getPostgresVersion fs pgDataPath = Returns (major * 10000, None).
Proof.
  unfold holdsFile. intros Hfile [Hlo Hhi]. unfold getPostgresVersion. rewrite Hfile.
  destruct (versionLine_oneLine major minor) as [Hone Hlen].
  rewrite scanFirstLine_oneLine, versionLine_parts by done.
  cbn [lookup list_lookup].
  assert (Hmajor : decimalValue (format_d major) 0 = major)
    by (apply format_d_value; eapply N.le_lt_trans; [exact Hhi|reflexivity]).
  rewrite strconv_ParseUint_digits;
    [|apply format_d_allDigits|apply format_d_nonempty|rewrite Hmajor; lia].
  rewrite Hmajor. destruct (N.ltb_spec major 10) as [?|_]; [lia|].
  assert (Hval : decimalValue (format_d major ++ "0000")%string 0 = major * 10000).
  { rewrite decimalValue_app, Hmajor. cbn. lia. }
  rewrite strconv_ParseUint_digits.
  - by rewrite Hval.
  - rewrite allDigits_app, format_d_allDigits. reflexivity.
  - pose proof (format_d_nonempty major). destruct (format_d major); done.
  - rewrite Hval. lia.
Qed.

(** A major below 10 with a minor: the digits of ten times the major, the
    minor as it stands, and two zeros. *)
Lemma getPostgresVersion_major_minor (major second : N) (rest : option string) :
  holdsFile fs pgDataPath (fileOf (versionLine major (Some second)) rest) ->
  major < 10 ->
  second < 100000 ->
  getPostgresVersion fs pgDataPath
  = Returns (major * 10 * 10 ^ N.of_nat (String.length (format_d second) + 2)
             + second * 100, None).
Proof.
  unfold holdsFile. intros Hfile Hmajor Hsecond. unfold getPostgresVersion. rewrite Hfile.
  destruct (versionLine_oneLine major (Some second)) as [Hone Hlen].
  rewrite scanFirstLine_oneLine, versionLine_parts by done.
  cbn [lookup list_lookup].
  assert (Hm : decimalValue (format_d major) 0 = major)
    by (apply format_d_value; eapply N.lt_trans; [exact Hmajor|reflexivity]).
  assert (Hm10 : decimalValue (format_d (major * 10)) 0 = major * 10).
  { apply format_d_value. apply N.lt_trans with 100; [lia|reflexivity]. }
  assert (Hs : decimalValue (format_d second) 0 = second)
    by (apply format_d_value; eapply N.lt_trans; [exact Hsecond|reflexivity]).
  rewrite strconv_ParseUint_digits;
    [|apply format_d_allDigits|apply format_d_nonempty|rewrite Hm; lia].
  rewrite Hm. destruct (N.ltb_spec major 10) as [_|?]; [|lia].
  set (n := String.length (format_d second)).
  assert (Hn : (0 < n <= 5)%nat).
  { apply (formatDigits_length 20 second 5); [lia|exact Hsecond]. }
  assert (Hval : decimalValue (format_d (major * 10) ++ format_d second ++ "00")%string 0
                 = major * 10 * 10 ^ N.of_nat (n + 2) + second * 100).
  { rewrite !decimalValue_app, Hm10.
    rewrite (decimalValue_acc (format_d second)), Hs. fold n. cbn [decimalValue].
    rewrite Nat2N.inj_add, N.pow_add_r. change (10 ^ N.of_nat 2) with 100.
    change (N_of_ascii "0" - 48) with 0. lia. }
  assert (Hpow : 10 ^ N.of_nat (n + 2) <= 10 ^ 7) by (apply N.pow_le_mono_r; lia).
  change (10 ^ 7) with 10000000 in Hpow.
  rewrite strconv_ParseUint_digits.
  - by rewrite Hval.
  - rewrite !allDigits_app, !format_d_allDigits. reflexivity.
  - pose proof (format_d_nonempty (major * 10)).
    destruct (format_d (major * 10)); done.
  - rewrite Hval. nia.
Qed.

(** A major below 10 on its own: the line has one part, and the second
    one is asked for. *)
Lemma getPostgresVersion_bare_major (major : N) (rest : option string) :
  holdsFile fs pgDataPath (fileOf (versionLine major None) rest) ->
  major < 10 ->
  getPostgresVersion fs pgDataPath = Panics (PanicIndexOutOfRange 1 1).
Proof.
  unfold holdsFile. intros Hfile Hmajor. unfold getPostgresVersion. rewrite Hfile.
  destruct (versionLine_oneLine major None) as [Hone Hlen].
  rewrite scanFirstLine_oneLine, versionLine_parts by done.
  cbn [lookup list_lookup].
  assert (Hm : decimalValue (format_d major) 0 = major)
    by (apply format_d_value; eapply N.lt_trans; [exact Hmajor|reflexivity]).
  rewrite strconv_ParseUint_digits;
    [|apply format_d_allDigits|apply format_d_nonempty|rewrite Hm; lia].
  rewrite Hm. destruct (N.ltb_spec major 10) as [_|?]; [|lia]. reflexivity.
Qed.

(** C7, as the code has it.  The normalised version of a first line
    [<major>.<minor>] with a major below 10 and a minor of one digit is
    [major * 10000 + minor * 100]; that of a first line [<major>] or
    [<major>.<minor>] with a major from 10 to 429496 is [major * 10000].
    So 9.6 gives 90600, 9.4 gives 90400, 10 gives 100000 and 11 gives
    110000. *)
Theorem getPostgresVersion_normalises (major : N) (minor : option N) (rest : option string) :
  holdsFile fs pgDataPath (fileOf (versionLine major minor) rest) ->
  (forall second, major < 10 -> minor = Some second -> second < 10 ->
     getPostgresVersion fs pgDataPath = Returns (major * 10000 + second * 100, None))
  /\ (10 <= major <= 429496 ->
      getPostgresVersion fs pgDataPath = Returns (major * 10000, None)).
Proof.
  intros Hfile. split.
  - intros second Hmajor -> Hsecond.
    rewrite (getPostgresVersion_major_minor major second rest) by (done || lia).
    assert (Hlen : String.length (format_d second) = 1%nat).
    { destruct (formatDigits_length 20 second 1) as [H1 H2];
        [lia|exact Hsecond|unfold format_d; lia]. }
    rewrite Hlen. change (10 ^ N.of_nat (1 + 2)) with 1000.
    do 2 f_equal. lia.
  - intros Hmajor. by apply (getPostgresVersion_major major minor rest).
Qed.

(** C8.  A first line that is a bare major below 10, such as 9, makes
    the code read [parts[1]] of a slice of one part: it panics, where it
    returns an error for the other files it cannot use.  A bare major
    from 10 to 429496 takes the other branch, which reads no second
    part, and returns the version and nil. *)
Theorem getPostgresVersion_bare_major_crashes (major : N) (rest : option string) :
  holdsFile fs pgDataPath (fileOf (versionLine major None) rest) ->
  (major < 10 ->
   getPostgresVersion fs pgDataPath = Panics (PanicIndexOutOfRange 1 1)
   /\ forall pgMajor err, getPostgresVersion fs pgDataPath <> Returns (pgMajor, err))
  /\ (10 <= major <= 429496 ->
      getPostgresVersion fs pgDataPath = Returns (major * 10000, None)).
Proof.
  intros Hfile. split.
  - intros Hmajor.
    rewrite (getPostgresVersion_bare_major major rest Hfile Hmajor).
    split; [reflexivity|]. intros pgMajor err. discriminate.
  - intros Hmajor. by apply (getPostgresVersion_major major None rest).
Qed.

End PostgresVersion.

Section PostgresVersionAtWork.
Import agent numerals examples.

(** C7 at work on the four lines the spec lists. *)
Lemma getPostgresVersion_normalises_witness :
  getPostgresVersion (fsWith "9.6") "/var/pg" = Returns (90600, None)
  /\ getPostgresVersion (fsWith "9.4") "/var/pg" = Returns (90400, None)
  /\ getPostgresVersion (fsWith "10") "/var/pg" = Returns (100000, None)
  /\ getPostgresVersion (fsWith "11") "/var/pg" = Returns (110000, None).
Proof.
  split; [|split; [|split]].
  - destruct (getPostgresVersion_normalises (fsWith "9.6") "/var/pg"
                9 (Some 6) None eq_refl) as [H _].
    specialize (H 6 eq_refl eq_refl eq_refl). exact H.
  - destruct (getPostgresVersion_normalises (fsWith "9.4") "/var/pg"
                9 (Some 4) None eq_refl) as [H _].
    specialize (H 4 eq_refl eq_refl eq_refl). exact H.
  - destruct (getPostgresVersion_normalises (fsWith "10") "/var/pg"
                10 None None eq_refl) as [_ H].
    assert (Hrange : 10 <= 10 <= 429496) by (split; discriminate).
    specialize (H Hrange). exact H.
  - destruct (getPostgresVersion_normalises (fsWith "11") "/var/pg"
                11 None None eq_refl) as [_ H].
    assert (Hrange : 10 <= 11 <= 429496) by (split; discriminate).
    specialize (H Hrange). exact H.
Defined.

(** C7 as stated fails: on 9.6 the code gives 90600, the formula of the
    spec 9600. *)
Lemma getPostgresVersion_formula_counterexample :
  getPostgresVersion (fsWith "9.6") "/var/pg" = Returns (90600, None)
  /\ normalise_formula_of_spec 9 6 = 9600
  /\ getPostgresVersion (fsWith "9.6") "/var/pg"
     <> Returns (normalise_formula_of_spec 9 6, None).
Proof. split; [reflexivity|split; [reflexivity|discriminate]]. Qed.

(** C8 at work: a [PG_VERSION] that says 9 and no more, and one that
    says 11. *)
Lemma getPostgresVersion_bare_major_crashes_witness :
  versionLine 9 None = "9"
  /\ getPostgresVersion (fsWith "9") "/var/pg" = Panics (PanicIndexOutOfRange 1 1)
  /\ getPostgresVersion (fsWith "11") "/var/pg" = Returns (110000, None).
Proof.
  split; [reflexivity|]. split.
  - destruct (getPostgresVersion_bare_major_crashes (fsWith "9") "/var/pg"
                9 None eq_refl) as [H _].
    destruct (H eq_refl) as [Hpanic _]. exact Hpanic.
  - destruct (getPostgresVersion_bare_major_crashes (fsWith "11") "/var/pg"
                11 None eq_refl) as [_ H].
    assert (Hrange : 10 <= 11 <= 429496) by (split; discriminate).
    exact (H Hrange).
Defined.

(** The files [getPostgresVersion] cannot use come back as errors: an
    empty file, a line that is no number, a minor that is none. *)
Example getPostgresVersion_malformed_errors :
  getPostgresVersion (fsWith "") "/var/pg"
  = Returns (0, Some (errorWrap (NumError "ParseUint" "" ErrSyntax)
                        "unable to parse first section of version"))
  /\ getPostgresVersion (fsWith "devel") "/var/pg"
     = Returns (0, Some (errorWrap (NumError "ParseUint" "devel" ErrSyntax)
                           "unable to parse first section of version"))
  /\ getPostgresVersion (fsWith "9.x") "/var/pg"
     = Returns (0, Some (errorWrap (NumError "ParseUint" "90x00" ErrSyntax)
                           "unable to parse version back to integer")).
Proof. split; [|split]; reflexivity. Qed.

(** Beyond 429496 the version no longer fits the 32 bits it is parsed
    back into, and six digits of minor do not fit after a 9 either. *)
Example getPostgresVersion_out_of_range :
  getPostgresVersion (fsWith "429497") "/var/pg"
  = Returns (4294967295,
             Some (errorWrap (NumError "ParseUint" "4294970000" ErrRange)
                     "unable to parse version back to integer"))
  /\ getPostgresVersion (fsWith "9.123456") "/var/pg"
     = Returns (4294967295,
                Some (errorWrap (NumError "ParseUint" "9012345600" ErrRange)
                        "unable to parse version back to integer")).
Proof. split; reflexivity. Qed.

End PostgresVersionAtWork.

(** * The I/O cache: one hand-over per marker *)

Section Dedup.
Import iocache dedup.
Variable k : IOCacheKey.

Lemma enqueues_app (evs new : list Event) :
  enqueues k (evs ++ new) = (enqueues k evs + enqueues k new)%nat.
Proof. unfold enqueues. by rewrite List.filter_app, length_app. Qed.

Lemma prefaults_app (evs new : list Event) :
  prefaults k (evs ++ new) = (prefaults k evs + prefaults k new)%nat.
Proof. unfold prefaults. by rewrite List.filter_app, length_app. Qed.

Lemma markerKept_app (evs new : list Event) :
  markerKept k (evs ++ new) <-> markerKept k evs /\ markerKept k new.
Proof. unfold markerKept. rewrite forallb_app. apply andb_true_iff. Qed.

Lemma handedOff_app (evs new : list Event) :
  handedOff k (evs ++ new) <-> handedOff k evs \/ handedOff k new.
Proof. unfold handedOff. rewrite existsb_app. apply orb_true_iff. Qed.

Lemma holding_insert (ws : list WorkerPC) (w : nat) (old new : WorkerPC) :
  ws !! w = Some old ->
  (holding k (<[w := new]> ws) + Nat.b2n (holds k old))%nat
  = (holding k ws + Nat.b2n (holds k new))%nat.
Proof.
  revert w. induction ws as [|x ws IH]; intros w Hw; [done|].
  destruct w as [|w]; cbn in Hw.
  - inversion Hw; subst. unfold holding. cbn.
    destruct (holds k old), (holds k new); cbn [length Nat.b2n]; lia.
  - specialize (IH w Hw). unfold holding in *. cbn.
    destruct (holds k x); [exact (f_equal S IH)|exact IH].
Qed.

(** The events a step adds, when none of them stores [k]'s marker, keep
    the order of stores and hand-offs. *)
Lemma storesFollowHandOffs_app (evs new : list Event) :
  storesFollowHandOffs k evs ->
  (forall pre ttl post, new = pre ++ EvStore k ttl :: post -> handedOff k (evs ++ pre)) ->
  storesFollowHandOffs k (evs ++ new).
Proof.
  intros Hevs Hnew pre ttl post Heq.
  apply List.app_eq_app in Heq as [mid [[Hpre Hpost]|[Hpre Hpost]]].
  - destruct mid as [|e mid].
    + rewrite app_nil_r in Hpre. subst pre. cbn in Hpost.
      specialize (Hnew [] ttl post (eq_sym Hpost)). by rewrite app_nil_r in Hnew.
    + cbn in Hpost. inversion Hpost; subst. eapply Hevs. done.
  - subst pre. eapply Hnew. done.
Qed.

(** *** The order of a loader call *)

Lemma loaderCalls_app (pc : option LoaderPC) (evs new : list Event) :
  loaderCalls k pc (evs ++ new)
  = match loaderCalls k pc evs with
    | Some pc' => loaderCalls k pc' new
    | None => None
    end.
Proof.
  revert pc. induction evs as [|e evs IH]; intros pc; [done|].
  cbn. destruct (loaderStep k e) as [st|]; [|apply IH].
  destruct (loaderNext pc st); [apply IH|done].
Qed.

(** A step whose events take the loader of [k] from where it stood to
    where it stands keeps the history in order. *)
Lemma inOrder_step (ioc ioc' : IOCache) (new : list Event) :
  inOrder k ioc ->
  events ioc' = events ioc ++ new ->
  loaderCalls k (loaders ioc !! k) new = Some (loaders ioc' !! k) ->
  inOrder k ioc'.
Proof.
  unfold inOrder. intros Hold Hev Hnew. by rewrite Hev, loaderCalls_app, Hold.
Qed.

Lemma inOrder_New (cfg0 : IOCacheConfig) (fhc : fhcache.FileHandleCache) :
  inOrder k (New cfg0 fhc).
Proof. unfold inOrder. cbn. by rewrite lookup_empty. Qed.

Lemma inOrder_GetIFPresent (k' : IOCacheKey) (ioc : IOCache) :
  inOrder k ioc -> inOrder k (GetIFPresent k' ioc).1.
Proof.
  intros HI. unfold GetIFPresent. destruct (decide (k' ∈ c ioc)); cbn [fst].
  - by apply (inOrder_step ioc _ [EvHit k']).
  - destruct (loaders ioc !! k') as [pc|] eqn:Hl; cbn [fst].
    + by apply (inOrder_step ioc _ [EvMiss k']).
    + apply (inOrder_step ioc _ [EvMiss k'; EvLoad k']); [done..|]. fields. cbn.
      case_bool_decide as Hk.
      * subst k'. by rewrite Hl, lookup_insert_eq.
      * by rewrite lookup_insert_ne.
Qed.

Lemma inOrder_loaderSend (k' : IOCacheKey) (w : nat) (ioc ioc' : IOCache) :
  inOrder k ioc -> loaderSend k' w ioc = Some ioc' -> inOrder k ioc'.
Proof.
  intros HI. unfold loaderSend.
  destruct (loaders ioc !! k') as [[|]|] eqn:Hl; try done.
  destruct (workers ioc !! w) as [[| |]|]; try done. intros [= <-].
  apply (inOrder_step ioc _ [EvEnqueue k' w]); [done..|]. fields. cbn.
  case_bool_decide as Hk.
  - subst k'. by rewrite Hl, lookup_insert_eq.
  - by rewrite lookup_insert_ne.
Qed.

Lemma inOrder_loaderCtxDone (k' : IOCacheKey) (ioc ioc' : IOCache) :
  inOrder k ioc -> loaderCtxDone k' ioc = Some ioc' -> inOrder k ioc'.
Proof.
  intros HI. unfold loaderCtxDone.
  destruct (loaders ioc !! k') as [[|]|] eqn:Hl; try done.
  destruct (ctxDone ioc); [|done]. intros [= <-].
  apply (inOrder_step ioc _ [EvLoaderCtxDone k']); [done..|]. fields. cbn.
  case_bool_decide as Hk.
  - subst k'. by rewrite Hl, lookup_insert_eq.
  - by rewrite lookup_insert_ne.
Qed.

Lemma inOrder_loaderReturn (k' : IOCacheKey) (ioc ioc' : IOCache) :
  inOrder k ioc -> loaderReturn k' ioc = Some ioc' -> inOrder k ioc'.
Proof.
  intros HI. unfold loaderReturn.
  destruct (loaders ioc !! k') as [[|]|] eqn:Hl; try done. intros [= <-].
  apply (inOrder_step ioc _ [EvStore k' (TTL (cfg ioc))]); [done..|]. fields. cbn.
  case_bool_decide as Hk.
  - subst k'. by rewrite Hl, lookup_delete_eq.
  - by rewrite lookup_delete_ne.
Qed.

Lemma inOrder_step_action (a : Action) (ioc ioc' : IOCache) :
  inOrder k ioc -> step ioc a = Some ioc' -> inOrder k ioc'.
Proof.
  intros HI. destruct a as [k'|k' w|k'|k'|w fhc' err|w| |k'|k'|]; cbn [step].
  - intros [= <-]. by apply inOrder_GetIFPresent.
  - by apply inOrder_loaderSend.
  - by apply inOrder_loaderCtxDone.
  - by apply inOrder_loaderReturn.
  - unfold workerPrefault. destruct (workers ioc !! w) as [[|ioReq|]|]; try done.
    intros [= <-]. destruct err as [e|].
    + apply (inOrder_step ioc _ ([EvPrefault w ioReq (Some e)]
                                 ++ [EvRemove ioReq; EvWarn w ioReq warnMsg]));
        fields; [done|by rewrite <- app_assoc|done].
    + by apply (inOrder_step ioc _ [EvPrefault w ioReq None]).
  - unfold workerCtxDone. destruct (workers ioc !! w) as [[| |]|]; try done.
    destruct (ctxDone ioc); [|done]. intros [= <-].
    apply (inOrder_step ioc _ []); fields; [done|by rewrite app_nil_r|done].
  - intros [= <-]. apply (inOrder_step ioc _ []); fields; [done|by rewrite app_nil_r|done].
  - unfold expire. destruct (decide (k' ∈ c ioc)); [|done]. intros [= <-].
    by apply (inOrder_step ioc _ [EvExpire k']).
  - unfold evict. destruct (decide (k' ∈ c ioc)); [|done]. intros [= <-].
    by apply (inOrder_step ioc _ [EvEvict k']).
  - intros [= <-]. by apply (inOrder_step ioc _ [EvPurge]).
Qed.

Lemma inOrder_run (acts : list Action) :
  forall ioc ioc', inOrder k ioc -> run ioc acts = Some ioc' -> inOrder k ioc'.
Proof.
  induction acts as [|a acts IH]; intros ioc ioc' HI; cbn [run].
  - by intros [= <-].
  - destruct (step ioc a) as [ioc1|] eqn:Hstep; [|done].
    apply IH. by apply (inOrder_step_action a ioc).
Qed.

(** *** One hand-over per marker *)

Lemma Inv_New (cfg0 : IOCacheConfig) (fhc : fhcache.FileHandleCache) : Inv k (New cfg0 fhc).
Proof.
  split; cbn.
  - intros [pc H]. by rewrite lookup_empty in H.
  - unfold holding. induction (MaxConcurrentIOs cfg0) as [|n IH]; [done|exact IH].
  - by left.
  - intros H. by rewrite lookup_empty in H.
  - intros pre ttl post H. by destruct pre.
Qed.

(** A step that adds quiet events, keeps the workers and the loader of
    [k], and keeps or drops the marker of [k] only with an event that
    says so. *)
Lemma Inv_quiet (ioc ioc' : IOCache) (new : list Event) :
  Inv k ioc ->
  events ioc' = events ioc ++ new ->
  quiet k new ->
  holding k (workers ioc') = holding k (workers ioc) ->
  (is_Some (loaders ioc' !! k) -> is_Some (loaders ioc !! k) \/ k ∉ c ioc') ->
  (k ∈ c ioc' -> k ∈ c ioc) ->
  (loaders ioc' !! k = Some AtReturn ->
   loaders ioc !! k = Some AtReturn \/ handedOff k new) ->
  (markerKept k new -> (k ∈ c ioc -> k ∈ c ioc')
                       /\ (loaders ioc !! k = Some AtReturn ->
                           loaders ioc' !! k = Some AtReturn)) ->
  Inv k ioc'.
Proof.
  intros [H1 H2 H3 H4 H5] Hev (Hq1 & Hq2 & Hq3) Hw Hl Hc Hr Hk.
  split; rewrite ?Hev, ?enqueues_app, ?prefaults_app, ?Hq1, ?Hq2, ?Hw.
  - intros Hsome. destruct (Hl Hsome) as [Hold|Hnew]; [|done].
    intros Hin. by apply (H1 Hold), Hc.
  - lia.
  - intros [Hkept Hnew]%markerKept_app. destruct (Hk Hnew) as [Hkc Hkr].
    destruct (H3 Hkept) as [H0|[Hone [Hin|Hret]]]; [left; lia|right..].
    + split; [lia|]. left. by apply Hkc.
    + split; [lia|]. right. by apply Hkr.
  - intros Hret. apply handedOff_app. destruct (Hr Hret) as [Hold|Hnew]; [|by right].
    left. by apply H4.
  - apply storesFollowHandOffs_app; [done|]. intros pre ttl post Heq.
    by destruct (Hq3 pre ttl post).
Qed.

Lemma quiet_nil : quiet k [].
Proof. repeat split. intros pre ttl post H. by destruct pre. Qed.

Lemma quiet_one (e : Event) :
  isEnqueue k e = false -> isPrefault k e = false ->
  (forall ttl, e <> EvStore k ttl) ->
  quiet k [e].
Proof.
  intros He Hp Hs. unfold quiet, enqueues, prefaults. cbn. rewrite He, Hp.
  repeat split. intros pre ttl post H.
  destruct pre as [|e' [|e'' pre]]; inversion H; subst. by eapply Hs.
Qed.

Lemma quiet_app (new1 new2 : list Event) : quiet k new1 -> quiet k new2 -> quiet k (new1 ++ new2).
Proof.
  intros (He1 & Hp1 & Hs1) (He2 & Hp2 & Hs2).
  unfold quiet. rewrite enqueues_app, prefaults_app, He1, He2, Hp1, Hp2.
  repeat split. intros pre ttl post H.
  apply List.app_eq_app in H as [mid [[Hpre Hpost]|[Hpre Hpost]]].
  - destruct mid as [|e mid].
    + cbn in Hpost. by apply (Hs2 [] ttl post).
    + cbn in Hpost. inversion Hpost; subst. by apply (Hs1 pre ttl mid).
  - by apply (Hs2 mid ttl post).
Qed.

Lemma holding_insert_same (ws : list WorkerPC) (w : nat) (old new : WorkerPC) :
  ws !! w = Some old -> holds k old = false -> holds k new = false ->
  holding k (<[w := new]> ws) = holding k ws.
Proof.
  intros Hw Hold Hnew. pose proof (holding_insert ws w old new Hw) as H.
  rewrite Hold, Hnew in H. cbn in H. lia.
Qed.

Lemma Inv_GetIFPresent (k' : IOCacheKey) (ioc : IOCache) :
  Inv k ioc -> Inv k (GetIFPresent k' ioc).1.
Proof.
  intros HI. unfold GetIFPresent. destruct (decide (k' ∈ c ioc)) as [Hin|Hout]; cbn.
  - apply (Inv_quiet ioc _ [EvHit k']); try done; [by apply quiet_one|by left|by left].
  - destruct (loaders ioc !! k') as [pc|] eqn:Hl; cbn.
    + apply (Inv_quiet ioc _ [EvMiss k']); try done; [by apply quiet_one|by left|by left].
    + apply (Inv_quiet ioc _ [EvMiss k'; EvLoad k']); try done; cbn.
      * apply (quiet_app [EvMiss k'] [EvLoad k']); by apply quiet_one.
      * destruct (decide (k' = k)) as [->|Hne]; [by right|].
        rewrite lookup_insert_ne by done. by left.
      * destruct (decide (k' = k)) as [->|Hne].
        -- by rewrite lookup_insert_eq.
        -- rewrite lookup_insert_ne by done. by left.
      * intros _. split; [done|]. intros Hret.
        destruct (decide (k' = k)) as [->|Hne]; [congruence|].
        by rewrite lookup_insert_ne.
Qed.

Lemma Inv_loaderSend (k' : IOCacheKey) (w : nat) (ioc ioc' : IOCache) :
  Inv k ioc -> loaderSend k' w ioc = Some ioc' -> Inv k ioc'.
Proof.
  intros HI. unfold loaderSend.
  destruct (loaders ioc !! k') as [[|]|] eqn:Hl; try done.
  destruct (workers ioc !! w) as [[| |]|] eqn:Hw; try done.
  intros [= <-]. destruct (decide (k' = k)) as [->|Hne].
  - destruct HI as [H1 H2 H3 H4 H5].
    assert (Hnotin : k ∉ c ioc) by (apply H1; by rewrite Hl).
    assert (Henq : enqueues k [EvEnqueue k w] = 1%nat).
    { unfold enqueues. cbn. by rewrite bool_decide_true. }
    split; fields.
    + by intros _.
    + rewrite enqueues_app, prefaults_app, Henq.
      pose proof (holding_insert (workers ioc) w AtReceive (AtPrefault k) Hw) as Hh.
      cbn in Hh. rewrite bool_decide_true in Hh by done. cbn in Hh.
      change (prefaults k [EvEnqueue k w]) with 0%nat. lia.
    + intros [Hkept _]%markerKept_app. right. rewrite enqueues_app, Henq.
      split; [|right; by rewrite lookup_insert_eq].
      destruct (H3 Hkept) as [->|[_ [Hin|Hret]]]; [done|done|congruence].
    + intros _. apply handedOff_app. right. unfold handedOff. cbn.
      by rewrite bool_decide_true.
    + apply storesFollowHandOffs_app; [done|]. intros pre ttl post Heq.
      destruct pre as [|e [|e' pre]]; inversion Heq.
  - apply (Inv_quiet ioc _ [EvEnqueue k' w]); try done; fields.
    + apply quiet_one; cbn; [by rewrite bool_decide_false|done|done].
    + apply (holding_insert_same _ _ AtReceive); [done|done|].
      cbn. by rewrite bool_decide_false.
    + rewrite lookup_insert_ne by done. by left.
    + rewrite lookup_insert_ne by done. by left.
    + intros _. split; [done|]. by rewrite lookup_insert_ne.
Qed.

Lemma Inv_loaderCtxDone (k' : IOCacheKey) (ioc ioc' : IOCache) :
  Inv k ioc -> loaderCtxDone k' ioc = Some ioc' -> Inv k ioc'.
Proof.
  intros HI. unfold loaderCtxDone.
  destruct (loaders ioc !! k') as [[|]|] eqn:Hl; try done.
  destruct (ctxDone ioc); [|done]. intros [= <-].
  apply (Inv_quiet ioc _ [EvLoaderCtxDone k']); try done; fields.
  - by apply quiet_one.
  - destruct (decide (k' = k)) as [->|Hne].
    + left. by rewrite Hl.
    + rewrite lookup_insert_ne by done. by left.
  - destruct (decide (k' = k)) as [->|Hne].
    + intros _. right. unfold handedOff. cbn. by rewrite bool_decide_true.
    + rewrite lookup_insert_ne by done. by left.
  - intros _. split; [done|]. destruct (decide (k' = k)) as [->|Hne].
    + by rewrite lookup_insert_eq.
    + by rewrite lookup_insert_ne.
Qed.

Lemma Inv_loaderReturn (k' : IOCacheKey) (ioc ioc' : IOCache) :
  Inv k ioc -> loaderReturn k' ioc = Some ioc' -> Inv k ioc'.
Proof.
  intros HI. unfold loaderReturn.
  destruct (loaders ioc !! k') as [[|]|] eqn:Hl; try done.
  intros [= <-]. destruct (decide (k' = k)) as [->|Hne].
  - destruct HI as [H1 H2 H3 H4 H5]. split; fields.
    + rewrite lookup_delete_eq. by intros [? ?].
    + rewrite enqueues_app, prefaults_app.
      change (enqueues k [EvStore k (TTL (cfg ioc))]) with 0%nat.
      change (prefaults k [EvStore k (TTL (cfg ioc))]) with 0%nat. lia.
    + intros [Hkept _]%markerKept_app. rewrite enqueues_app.
      change (enqueues k [EvStore k (TTL (cfg ioc))]) with 0%nat.
      destruct (H3 Hkept) as [->|[-> _]]; [by left|right].
      split; [done|]. left. by apply elem_of_union_l, elem_of_singleton.
    + by rewrite lookup_delete_eq.
    + apply storesFollowHandOffs_app; [done|]. intros pre ttl post Heq.
      destruct pre as [|e [|e' pre]]; inversion Heq. rewrite app_nil_r. by apply H4.
  - apply (Inv_quiet ioc _ [EvStore k' (TTL (cfg ioc))]); try done; fields.
    + apply quiet_one; [done|done|]. intros ttl [= ?]. done.
    + rewrite lookup_delete_ne by done. by left.
    + intros [Heq%elem_of_singleton|Hin]%elem_of_union; [congruence|done].
    + rewrite lookup_delete_ne by done. by left.
    + intros _. split; [apply elem_of_union_r|]. by rewrite lookup_delete_ne.
Qed.

Lemma Inv_workerPrefault (w : nat) (fhc' : fhcache.FileHandleCache) (err : error)
    (ioc ioc' : IOCache) :
  Inv k ioc -> workerPrefault w fhc' err ioc = Some ioc' -> Inv k ioc'.
Proof.
  intros HI. unfold workerPrefault.
  destruct (workers ioc !! w) as [[|ioReq|]|] eqn:Hw; try done.
  intros [= <-]. destruct (decide (ioReq = k)) as [->|Hne].
  - destruct HI as [H1 H2 H3 H4 H5].
    pose proof (holding_insert (workers ioc) w (AtPrefault k) AtReceive Hw) as Hh.
    cbn in Hh. rewrite bool_decide_true in Hh by done. cbn in Hh.
    assert (Hpre : prefaults k [EvPrefault w k err] = 1%nat).
    { unfold prefaults. cbn. by rewrite bool_decide_true. }
    destruct err as [e|]; split; fields.
    + intros Hsome. specialize (H1 Hsome). by intros [Hin _]%elem_of_difference.
    + rewrite !enqueues_app, !prefaults_app, Hpre.
      change (enqueues k [EvPrefault w k (Some e)]) with 0%nat.
      change (enqueues k [EvRemove k; EvWarn w k warnMsg]) with 0%nat.
      change (prefaults k [EvRemove k; EvWarn w k warnMsg]) with 0%nat. lia.
    + intros [_ Hkept]%markerKept_app. unfold markerKept in Hkept. cbn in Hkept.
      by rewrite bool_decide_true in Hkept.
    + intros Hret. apply handedOff_app. left. apply handedOff_app. left. by apply H4.
    + apply storesFollowHandOffs_app.
      * apply storesFollowHandOffs_app; [done|]. intros pre ttl post Heq.
        destruct pre as [|x [|y pre]]; inversion Heq.
      * intros pre ttl post Heq. destruct pre as [|x [|y [|z pre]]]; inversion Heq.
    + done.
    + rewrite enqueues_app, prefaults_app, Hpre.
      change (enqueues k [EvPrefault w k None]) with 0%nat. lia.
    + intros [Hkept _]%markerKept_app. rewrite enqueues_app.
      change (enqueues k [EvPrefault w k None]) with 0%nat.
      destruct (H3 Hkept) as [->|[-> Hin]]; [by left|by right].
    + intros Hret. apply handedOff_app. left. by apply H4.
    + apply storesFollowHandOffs_app; [done|]. intros pre ttl post Heq.
      destruct pre as [|x [|y pre]]; inversion Heq.
  - assert (Hq : quiet k [EvPrefault w ioReq err]).
    { apply quiet_one; cbn; [done|by rewrite bool_decide_false|done]. }
    assert (Hh : holding k (<[w := AtReceive]> (workers ioc)) = holding k (workers ioc)).
    { apply (holding_insert_same _ _ (AtPrefault ioReq)); [done| |done].
      cbn. by rewrite bool_decide_false. }
    destruct err as [e|].
    + apply (Inv_quiet ioc _ ([EvPrefault w ioReq (Some e)]
                              ++ [EvRemove ioReq; EvWarn w ioReq warnMsg]));
        fields; try done.
      * by rewrite <- app_assoc.
      * apply quiet_app; [done|].
        apply (quiet_app [EvRemove ioReq] [EvWarn w ioReq warnMsg]); by apply quiet_one.
      * by left.
      * by intros [Hin _]%elem_of_difference.
      * by left.
      * intros _. split; [|done]. intros Hin. apply elem_of_difference.
        split; [done|]. intros Heq%elem_of_singleton. congruence.
    + apply (Inv_quiet ioc _ [EvPrefault w ioReq None]); fields; try done; by left.
Qed.

Lemma Inv_workerCtxDone (w : nat) (ioc ioc' : IOCache) :
  Inv k ioc -> workerCtxDone w ioc = Some ioc' -> Inv k ioc'.
Proof.
  intros HI. unfold workerCtxDone.
  destruct (workers ioc !! w) as [[| |]|] eqn:Hw; try done.
  destruct (ctxDone ioc); [|done]. intros [= <-].
  apply (Inv_quiet ioc _ []); fields; try done.
  - by rewrite app_nil_r.
  - apply quiet_nil.
  - by apply (holding_insert_same _ _ AtReceive).
  - by left.
  - by left.
Qed.

Lemma Inv_set_ctxDone (b : bool) (ioc : IOCache) : Inv k ioc -> Inv k (set_ctxDone b ioc).
Proof.
  intros HI. apply (Inv_quiet ioc _ []); fields; try done.
  - by rewrite app_nil_r.
  - apply quiet_nil.
  - by left.
  - by left.
Qed.

(** Dropping a marker, with the event that says so. *)
Lemma Inv_drop (k' : IOCacheKey) (e : Event) (ioc : IOCache) :
  Inv k ioc ->
  quiet k [e] ->
  (k' = k -> dropsMarker k e = true) ->
  Inv k (emit [e] (set_c (c ioc ∖ {[k']}) ioc)).
Proof.
  intros HI Hq Hdrop. apply (Inv_quiet ioc _ [e]); fields; try done.
  - by left.
  - by intros [Hin _]%elem_of_difference.
  - by left.
  - intros Hkept. unfold markerKept in Hkept. cbn in Hkept.
    apply andb_prop in Hkept as [Hkept%negb_true_iff _].
    split; [|done]. intros Hin. apply elem_of_difference. split; [done|].
    intros ->%elem_of_singleton. rewrite Hdrop in Hkept; done.
Qed.

Lemma Inv_expire (k' : IOCacheKey) (ioc ioc' : IOCache) :
  Inv k ioc -> expire k' ioc = Some ioc' -> Inv k ioc'.
Proof.
  intros HI. unfold expire. destruct (decide (k' ∈ c ioc)); [|done]. intros [= <-].
  apply Inv_drop; [done|by apply quiet_one|].
  intros ->. cbn. by rewrite bool_decide_true.
Qed.

Lemma Inv_evict (k' : IOCacheKey) (ioc ioc' : IOCache) :
  Inv k ioc -> evict k' ioc = Some ioc' -> Inv k ioc'.
Proof.
  intros HI. unfold evict. destruct (decide (k' ∈ c ioc)); [|done]. intros [= <-].
  apply Inv_drop; [done|by apply quiet_one|].
  intros ->. cbn. by rewrite bool_decide_true.
Qed.

Lemma Inv_Purge (ioc : IOCache) : Inv k ioc -> Inv k (Purge ioc).
Proof.
  intros HI. unfold Purge. apply (Inv_quiet ioc _ [EvPurge]); fields; try done.
  - by apply quiet_one.
  - by left.
  - by left.
Qed.

Lemma Inv_step (a : Action) (ioc ioc' : IOCache) :
  Inv k ioc -> step ioc a = Some ioc' -> Inv k ioc'.
Proof.
  intros HI. destruct a as [k'|k' w|k'|k'|w fhc' err|w| |k'|k'|]; cbn [step].
  - intros [= <-]. by apply Inv_GetIFPresent.
  - by apply Inv_loaderSend.
  - by apply Inv_loaderCtxDone.
  - by apply Inv_loaderReturn.
  - by apply Inv_workerPrefault.
  - by apply Inv_workerCtxDone.
  - intros [= <-]. by apply Inv_set_ctxDone.
  - by apply Inv_expire.
  - by apply Inv_evict.
  - intros [= <-]. by apply Inv_Purge.
Qed.

Lemma Inv_run (acts : list Action) :
  forall ioc ioc', Inv k ioc -> run ioc acts = Some ioc' -> Inv k ioc'.
Proof.
  induction acts as [|a acts IH]; intros ioc ioc' HI; cbn [run].
  - by intros [= <-].
  - destruct (step ioc a) as [ioc1|] eqn:Hstep; [|done].
    apply IH. by apply (Inv_step a ioc).
Qed.

End Dedup.

Section DedupClaims.
Import iocache dedup.

(** C1, as the code has it.  In every run from [New] and for every key:
    - while the key's marker is not dropped (no expiry, no eviction, no
      purge, no removal after a failed prefault), the key is handed to a
      worker once at the most, and prefaulted once at the most;
    - a prefault is only issued for a hand-over;
    - the marker is stored after the hand-over (or after the loader saw
      the context done), never before: every store follows a hand-off,
      and the history of the key is a row of loader calls, each started,
      then handed off, then stored;
    - a request for a key with a marker is a hit and starts nothing;
    - a request for a key whose loader is in flight is a miss and starts
      no second loader;
    - a request for a key with neither starts the loader, which hands the
      key to a waiting worker and then returns the marker to be stored. *)
Theorem iocache_one_enqueue_per_marker
    (cfg0 : IOCacheConfig) (fhc : fhcache.FileHandleCache) (acts : list Action)
    (ioc : IOCache) (k : IOCacheKey) :
  run (New cfg0 fhc) acts = Some ioc ->
  (markerKept k (events ioc) ->
   (enqueues k (events ioc) <= 1)%nat /\ (prefaults k (events ioc) <= 1)%nat)
  /\ (prefaults k (events ioc) <= enqueues k (events ioc))%nat
  /\ storesFollowHandOffs k (events ioc)
  /\ inOrder k ioc
  /\ (k ∈ c ioc -> GetIFPresent k ioc = (emit [EvHit k] ioc, (Some tt, None)))
  /\ (is_Some (loaders ioc !! k) ->
      GetIFPresent k ioc = (emit [EvMiss k] ioc, (None, Some KeyNotFoundError)))
  /\ (k ∉ c ioc -> loaders ioc !! k = None ->
      forall w, workers ioc !! w = Some AtReceive ->
      exists ioc',
        run ioc [ARequest k; ALoaderSend k w; ALoaderReturn k] = Some ioc'
        /\ events ioc'
           = events ioc ++ [EvMiss k; EvLoad k; EvEnqueue k w; EvStore k (TTL (cfg ioc))]
        /\ k ∈ c ioc').
Proof.
  intros Hrun.
  destruct (Inv_run k acts _ _ (Inv_New k cfg0 fhc) Hrun) as [H1 H2 H3 H4 H5].
  split; [|split; [|split; [|split; [|split; [|split]]]]].
  - intros Hkept. destruct (H3 Hkept) as [H0|[Hone _]]; lia.
  - lia.
  - done.
  - exact (inOrder_run k acts _ _ (inOrder_New k cfg0 fhc) Hrun).
  - intros Hin. unfold GetIFPresent. by rewrite decide_True.
  - intros Hsome. unfold GetIFPresent. rewrite decide_False by by apply H1.
    by destruct Hsome as [pc ->].
  - intros Hout Hnone w Hw. cbn [run step]. unfold GetIFPresent.
    rewrite decide_False by done. rewrite Hnone. cbn [fst].
    unfold loaderSend. fields. rewrite lookup_insert_eq, Hw.
    unfold loaderReturn. fields. rewrite lookup_insert_eq.
    eexists. split; [done|]. fields.
    split; [by rewrite <- !app_assoc|by apply elem_of_union_l, elem_of_singleton].
Qed.

(** What a worker holding a dequeued request does to the cache:
    - when the prefault fails, it removes the key from the cache and logs
      the warning; a request for the key then misses, and unless a loader
      for the key is still in flight it starts one, which hands the key
      to a worker again (the one that failed is waiting);
    - when the prefault succeeds, it leaves the cache as it is. *)
Lemma worker_failure_removes_key
    (ioc : IOCache) (threadID : nat) (ioReq : IOCacheKey)
    (fhc' : fhcache.FileHandleCache) :
  workers ioc !! threadID = Some (AtPrefault ioReq) ->
  (forall e,
     exists ioc',
       workerPrefault threadID fhc' (Some e) ioc = Some ioc'
       /\ c ioc' = c ioc ∖ {[ioReq]}
       /\ (ioReq ∉ c ioc')
       /\ events ioc'
          = events ioc ++ [EvPrefault threadID ioReq (Some e); EvRemove ioReq;
                           EvWarn threadID ioReq "unable to prefault page"]
       /\ (GetIFPresent ioReq ioc').2 = (None, Some KeyNotFoundError)
       /\ (loaders ioc !! ioReq = None ->
           exists ioc'',
             run ioc' [ARequest ioReq; ALoaderSend ioReq threadID] = Some ioc''
             /\ events ioc''
                = events ioc' ++ [EvMiss ioReq; EvLoad ioReq; EvEnqueue ioReq threadID]
             /\ workers ioc'' !! threadID = Some (AtPrefault ioReq)))
  /\ (exists ioc',
        workerPrefault threadID fhc' None ioc = Some ioc'
        /\ c ioc' = c ioc
        /\ events ioc' = events ioc ++ [EvPrefault threadID ioReq None]).
Proof.
  intros Hw. assert (Hlen : (threadID < length (workers ioc))%nat).
  { apply lookup_lt_is_Some. by rewrite Hw. }
  split.
  - intros e. unfold workerPrefault. rewrite Hw. eexists. split; [done|]. fields.
    assert (Hout : ioReq ∉ c ioc ∖ {[ioReq]}).
    { intros [_ Hn]%elem_of_difference. apply Hn. by apply elem_of_singleton. }
    split; [done|]. split; [done|]. split; [by rewrite <- app_assoc|].
    split.
    + unfold GetIFPresent. fields. rewrite decide_False by done.
      by destruct (loaders ioc !! ioReq).
    + intros Hnone. cbn [run step]. unfold GetIFPresent. fields.
      rewrite decide_False by done. rewrite Hnone. cbn [fst].
      unfold loaderSend. fields. rewrite lookup_insert_eq.
      rewrite list_lookup_insert_eq by done.
      eexists. split; [done|]. fields.
      split; [by rewrite <- !app_assoc|].
      apply list_lookup_insert_eq. by rewrite length_insert.
  - unfold workerPrefault. rewrite Hw. eexists. split; [done|]. by fields.
Qed.

(** C2.  The removal after a failed prefault comes too early to make a
    retry possible.  A hand-over leaves worker [threadID] holding
    [ioReq] and the loader call that sent it about to return, the marker
    not stored yet.  When the prefault fails in that state, the worker
    removes a key that is not there, logs the warning and goes back to
    the queue; the loader then returns and the marker is stored; the
    next request for the key is a hit, which calls no loader and
    enqueues nothing: the page that failed is not asked for again while
    the marker lasts. *)
Theorem worker_failure_remove_overtaken
    (ioc : IOCache) (threadID : nat) (ioReq : IOCacheKey)
    (fhc' : fhcache.FileHandleCache) (e : error_value) :
  (forall ioc0,
     step ioc0 (ALoaderSend ioReq threadID) = Some ioc ->
     workers ioc !! threadID = Some (AtPrefault ioReq)
     /\ loaders ioc !! ioReq = Some AtReturn)
  /\ (workers ioc !! threadID = Some (AtPrefault ioReq) ->
      loaders ioc !! ioReq = Some AtReturn ->
      exists ioc1 ioc2 ioc3,
        step ioc (AWorkerPrefault threadID fhc' (Some e)) = Some ioc1
        /\ events ioc1
           = events ioc ++ [EvPrefault threadID ioReq (Some e); EvRemove ioReq;
                            EvWarn threadID ioReq "unable to prefault page"]
        /\ (ioReq ∉ c ioc1)
        /\ workers ioc1 !! threadID = Some AtReceive
        /\ step ioc1 (ALoaderReturn ioReq) = Some ioc2
        /\ events ioc2 = events ioc1 ++ [EvStore ioReq (TTL (cfg ioc))]
        /\ ioReq ∈ c ioc2
        /\ (GetIFPresent ioReq ioc2).2 = (Some tt, None)
        /\ step ioc2 (ARequest ioReq) = Some ioc3
        /\ events ioc3 = events ioc2 ++ [EvHit ioReq]
        /\ loaders ioc3 !! ioReq = None
        /\ enqueues ioReq (events ioc3) = enqueues ioReq (events ioc)).
Proof.
  split.
  - intros ioc0 Hstep. cbn [step] in Hstep. unfold loaderSend in Hstep.
    destruct (loaders ioc0 !! ioReq) as [[|]|]; [|done|done].
    destruct (workers ioc0 !! threadID) as [[| |]|] eqn:Hw; [|done|done|done].
    injection Hstep as <-. fields. split; [|by rewrite lookup_insert_eq].
    apply list_lookup_insert_eq, lookup_lt_is_Some. by rewrite Hw.
  - intros Hw Hl. assert (Hlen : (threadID < length (workers ioc))%nat).
    { apply lookup_lt_is_Some. by rewrite Hw. }
    assert (Hout : ioReq ∉ c ioc ∖ {[ioReq]}).
    { intros [_ Hn]%elem_of_difference. apply Hn. by apply elem_of_singleton. }
    assert (Hin : ioReq ∈ ({[ioReq]} ∪ c ioc ∖ {[ioReq]} : gset IOCacheKey)).
    { by apply elem_of_union_l, elem_of_singleton. }
    cbn [step]. unfold workerPrefault. rewrite Hw. eexists _, _, _.
    split; [done|]. fields. split; [by rewrite <- app_assoc|].
    split; [done|]. split; [by apply list_lookup_insert_eq|].
    unfold loaderReturn. fields. rewrite Hl.
    split; [done|]. fields. split; [done|]. split; [done|].
    unfold GetIFPresent. fields. rewrite decide_True by done. cbn [fst snd].
    split; [done|]. split; [done|]. fields. split; [done|].
    split; [by rewrite lookup_delete_eq|].
    rewrite <- !app_assoc, enqueues_app. cbn. lia.
Qed.

End DedupClaims.

Section DedupAtWork.
Import iocache dedup examples.

(** C1 at work: two callers ask for the same key on an empty cache, and
    ask again later; the key is handed over once and prefaulted once. *)
Lemma iocache_one_enqueue_per_marker_witness :
  run (New cfg2 []) duplicateRequests = Some (iocAfter duplicateRequests)
  /\ markerKept key1 (events (iocAfter duplicateRequests))
  /\ (enqueues key1 (events (iocAfter duplicateRequests)) <= 1)%nat
  /\ (prefaults key1 (events (iocAfter duplicateRequests)) <= 1)%nat.
Proof.
  assert (Hrun : run (New cfg2 []) duplicateRequests = Some (iocAfter duplicateRequests))
    by (vm_compute; reflexivity).
  assert (Hkept : markerKept key1 (events (iocAfter duplicateRequests)))
    by (vm_compute; reflexivity).
  destruct (iocache_one_enqueue_per_marker cfg2 [] duplicateRequests
              (iocAfter duplicateRequests) key1 Hrun) as [H _].
  destruct (H Hkept) as [Henq Hpre].
  split; [exact Hrun|]. split; [exact Hkept|]. split; [exact Henq|exact Hpre].
Defined.

(** C1 as stated fails: the marker is not there before the prefault
    runs.  In the run [prefaultFirst] the loader has handed the key to
    worker 0 and has not returned yet; the worker prefaults; no marker was
    stored before that. *)
Lemma iocache_marker_before_prefault_counterexample :
  ~ (forall (acts : list Action) (ioc : IOCache) (k : IOCacheKey),
       run (New cfg2 []) acts = Some ioc ->
       forall pre w err post,
         events ioc = pre ++ EvPrefault w k err :: post ->
         exists ttl, (EvStore k ttl) ∈ pre).
Proof.
  intros H.
  destruct (H prefaultFirst (iocAfter prefaultFirst) key1 ltac:(vm_compute; reflexivity)
              [EvMiss key1; EvLoad key1; EvEnqueue key1 0] 0%nat None []
              ltac:(vm_compute; reflexivity)) as [ttl Hin].
  repeat (apply elem_of_cons in Hin as [Hin|Hin]; [discriminate Hin|]).
  by apply elem_of_nil in Hin.
Qed.

(** The removal when the loader has returned before the prefault
    fails: worker 0 holds [key1], whose marker is stored. *)
Lemma worker_failure_removes_key_witness :
  workers (iocAfter loadKey1) !! 0%nat = Some (AtPrefault key1)
  /\ exists ioc',
       workerPrefault 0 [] (Some (errorNew "no such file or directory")) (iocAfter loadKey1)
       = Some ioc'
       /\ (key1 ∉ c ioc')
       /\ (GetIFPresent key1 ioc').2 = (None, Some KeyNotFoundError).
Proof.
  assert (Hw : workers (iocAfter loadKey1) !! 0%nat = Some (AtPrefault key1))
    by (vm_compute; reflexivity).
  split; [exact Hw|].
  destruct (worker_failure_removes_key (iocAfter loadKey1) 0 key1 [] Hw) as [H _].
  destruct (H (errorNew "no such file or directory"))
    as (ioc' & Hrun & _ & Hout & _ & Hmiss & _).
  exists ioc'. split; [exact Hrun|]. split; [exact Hout|exact Hmiss].
Defined.

(** C2 at work: [key1] is requested and handed to worker 0, whose
    prefault fails before the loader has returned; the marker is stored
    after the removal, the next request hits, and the one hand-over
    stays the only one. *)
Lemma worker_failure_remove_overtaken_witness :
  run (New cfg2 []) handedOver = Some (iocAfter handedOver)
  /\ exists ioc',
       run (iocAfter handedOver)
         [AWorkerPrefault 0 [] (Some (errorNew "no such file or directory"));
          ALoaderReturn key1; ARequest key1]
       = Some ioc'
       /\ key1 ∈ c ioc'
       /\ enqueues key1 (events ioc') = 1%nat.
Proof.
  assert (Hrun : run (New cfg2 []) handedOver = Some (iocAfter handedOver))
    by (vm_compute; reflexivity).
  split; [exact Hrun|].
  destruct (worker_failure_remove_overtaken (iocAfter handedOver) 0 key1 []
              (errorNew "no such file or directory")) as [_ H].
  destruct H as (ioc1 & ioc2 & ioc3 & H1 & _ & _ & _ & H2 & _ & Hin & _ & H3 & Hev & _ & Henq);
    [vm_compute; reflexivity|vm_compute; reflexivity|].
  exists ioc3. cbn [run]. rewrite H1, H2, H3. split; [reflexivity|].
  split.
  - cbn [step] in H3. unfold GetIFPresent in H3. rewrite decide_True in H3 by done.
    injection H3 as <-. exact Hin.
  - rewrite Henq. by vm_compute.
Defined.

(** On shutdown the loader sends nothing and the marker is stored all
    the same. *)
Example iocache_shutdown_stores_without_enqueue :
  events (iocAfter requestAtShutdown)
  = [EvMiss key1; EvLoad key1; EvLoaderCtxDone key1; EvStore key1 60]
  /\ enqueues key1 (events (iocAfter requestAtShutdown)) = 0%nat
  /\ key1 ∈ c (iocAfter requestAtShutdown).
Proof.
  split; [by vm_compute|]. split; [by vm_compute|].
  apply (bool_decide_unpack _). by vm_compute.
Qed.

End DedupAtWork.

(** * The I/O cache: workers, shutdown and purge *)

Section Workers.
Import iocache dedup.

Lemma step_keeps (a : Action) (ioc ioc' : IOCache) :
  step ioc a = Some ioc' ->
  length (workers ioc') = length (workers ioc)
  /\ cfg ioc' = cfg ioc
  /\ (ctxDone ioc = true -> ctxDone ioc' = true).
Proof.
  intros Hstep. destruct a; step_cases Hstep; rewrite ?length_insert; done.
Qed.

Lemma run_keeps (acts : list Action) :
  forall ioc ioc',
    run ioc acts = Some ioc' ->
    length (workers ioc') = length (workers ioc)
    /\ cfg ioc' = cfg ioc
    /\ (ctxDone ioc = true -> ctxDone ioc' = true).
Proof.
  induction acts as [|a acts IH]; intros ioc ioc'; cbn [run].
  - by intros [= <-].
  - destruct (step ioc a) as [ioc1|] eqn:Hstep; [|done]. intros Hrun.
    destruct (step_keeps a ioc ioc1 Hstep) as (Hl & Hc & Hd).
    destruct (IH ioc1 ioc' Hrun) as (Hl' & Hc' & Hd').
    rewrite Hl', Hc', Hl, Hc. auto.
Qed.

Lemma dequeued_app (evs new : list Event) :
  dequeued (evs ++ new) = (dequeued evs + dequeued new)%nat.
Proof. unfold dequeued. by rewrite List.filter_app, length_app. Qed.

Lemma prefaulted_app (evs new : list Event) :
  prefaulted (evs ++ new) = (prefaulted evs + prefaulted new)%nat.
Proof. unfold prefaulted. by rewrite List.filter_app, length_app. Qed.

(** What an update of one worker does to the number of busy ones. *)
Lemma busy_insert (ws : list WorkerPC) (i : nat) (w w' : WorkerPC) :
  ws !! i = Some w ->
  (busy (<[i := w']> ws) + (if isBusy w then 1 else 0)
   = busy ws + (if isBusy w' then 1 else 0))%nat.
Proof.
  unfold busy. revert i. induction ws as [|x ws IH]; intros i Hi; [done|].
  destruct i as [|i]; cbn in Hi.
  - injection Hi as ->. cbn.
    destruct (isBusy w), (isBusy w'); cbn; by rewrite ?Nat.add_0_r, ?Nat.add_1_r.
  - specialize (IH i Hi). cbn. destruct (isBusy x); cbn; [f_equal|]; exact IH.
Qed.

Lemma busy_le_length (ws : list WorkerPC) : (busy ws <= length ws)%nat.
Proof.
  unfold busy. induction ws as [|x ws IH]; cbn; [done|].
  destruct (isBusy x); cbn; lia.
Qed.

Lemma busy_replicate (n : nat) : busy (replicate n AtReceive) = 0%nat.
Proof. unfold busy. induction n as [|n IH]; [done|exact IH]. Qed.

(** Every request taken off the queue is either prefaulted or held by a
    busy worker: a step keeps the count. *)
Lemma step_dequeued (a : Action) (ioc ioc' : IOCache) :
  step ioc a = Some ioc' ->
  dequeued (events ioc) = (prefaulted (events ioc) + busy (workers ioc))%nat ->
  dequeued (events ioc') = (prefaulted (events ioc') + busy (workers ioc'))%nat.
Proof.
  intros Hstep Hinv.
  destruct a; step_cases Hstep;
    rewrite ?dequeued_app, ?prefaulted_app;
    try match goal with
        | H : workers ioc !! ?i = Some ?w |- context [busy (<[?i := ?w']> _)] =>
            pose proof (busy_insert (workers ioc) i w w' H) as Hbusy; cbn in Hbusy
        end;
    cbn; lia.
Qed.

Lemma run_dequeued (acts : list Action) :
  forall ioc ioc',
    run ioc acts = Some ioc' ->
    dequeued (events ioc) = (prefaulted (events ioc) + busy (workers ioc))%nat ->
    dequeued (events ioc') = (prefaulted (events ioc') + busy (workers ioc'))%nat.
Proof.
  induction acts as [|a acts IH]; intros ioc ioc'; cbn [run].
  - by intros [= <-].
  - destruct (step ioc a) as [ioc1|] eqn:Hstep; [|done]. intros Hrun Hinv.
    apply (IH ioc1 ioc' Hrun). by apply (step_dequeued a ioc).
Qed.

(** X1.  In every run from [New] the configuration stays the one given
    and there are as many workers as [MaxConcurrentIOs] says; every
    request taken off the queue has been prefaulted or is held by a
    worker that is busy with it, so at no time have more than
    [MaxConcurrentIOs] requests been dequeued and not yet prefaulted. *)
Theorem workers_bound_prefaults
    (cfg0 : IOCacheConfig) (fhc : fhcache.FileHandleCache) (acts : list Action)
    (ioc : IOCache) :
  run (New cfg0 fhc) acts = Some ioc ->
  cfg ioc = cfg0
  /\ length (workers ioc) = MaxConcurrentIOs cfg0
  /\ dequeued (events ioc) = (prefaulted (events ioc) + busy (workers ioc))%nat
  /\ (dequeued (events ioc) <= prefaulted (events ioc) + MaxConcurrentIOs cfg0)%nat.
Proof.
  intros Hrun. destruct (run_keeps acts _ _ Hrun) as (Hl & Hc & _).
  cbn in Hl, Hc. rewrite length_replicate in Hl.
  assert (Hnew : dequeued (events (New cfg0 fhc))
                 = (prefaulted (events (New cfg0 fhc)) + busy (workers (New cfg0 fhc)))%nat).
  { unfold New. cbn [events workers]. by rewrite busy_replicate. }
  pose proof (run_dequeued acts _ _ Hrun Hnew) as Hinv.
  pose proof (busy_le_length (workers ioc)) as Hle.
  split; [done|]. split; [done|]. split; [exact Hinv|]. lia.
Qed.

(** A worker that has returned was not put there by an update to
    another state. *)
Lemma exited_insert (ws : list WorkerPC) (i j : nat) (x : WorkerPC) :
  <[i := x]> ws !! j = Some Exited -> x <> Exited -> ws !! j = Some Exited.
Proof.
  intros Hj Hx. destruct (decide (i = j)) as [->|Hne].
  - destruct (decide (j < length ws)%nat) as [Hlt|Hge].
    + rewrite list_lookup_insert_eq in Hj by done. congruence.
    + rewrite list_insert_ge in Hj by lia. done.
  - by rewrite list_lookup_insert_ne in Hj.
Qed.

Lemma step_exited (a : Action) (ioc ioc' : IOCache) (j : nat) :
  step ioc a = Some ioc' ->
  workers ioc' !! j = Some Exited ->
  workers ioc !! j = Some Exited \/ ctxDone ioc' = true.
Proof.
  intros Hstep Hj. destruct a; step_cases Hstep; auto;
    left; by apply exited_insert in Hj.
Qed.

Lemma run_exited (acts : list Action) :
  forall ioc ioc' j,
    run ioc acts = Some ioc' ->
    workers ioc' !! j = Some Exited ->
    workers ioc !! j = Some Exited \/ ctxDone ioc' = true.
Proof.
  induction acts as [|a acts IH]; intros ioc ioc' j; cbn [run].
  - intros [= <-]. by left.
  - destruct (step ioc a) as [ioc1|] eqn:Hstep; [|done]. intros Hrun Hj.
    destruct (IH ioc1 ioc' j Hrun Hj) as [H1|Hd]; [|by right].
    destruct (step_exited a ioc ioc1 j Hstep H1) as [H0|Hd1]; [by left|right].
    by apply (run_keeps acts ioc1 ioc' Hrun).
Qed.

Lemma forallb_lookup {A : Type} (f : A -> bool) (l : list A) (i : nat) (x : A) :
  forallb f l = true -> l !! i = Some x -> f x = true.
Proof.
  intros Hall Hi. apply list_elem_of_lookup_2, list_elem_of_In in Hi.
  by apply (proj1 (forallb_forall f l) Hall).
Qed.

(** X2.  The workers return on the done context alone: in every run
    from [New], a worker that has returned means the context is done.
    So [Wait] on a cache with a worker does not return before the
    context is cancelled. *)
Theorem workers_exit_only_on_cancel
    (cfg0 : IOCacheConfig) (fhc : fhcache.FileHandleCache) (acts : list Action)
    (ioc : IOCache) :
  run (New cfg0 fhc) acts = Some ioc ->
  (forall threadID, workers ioc !! threadID = Some Exited -> ctxDone ioc = true)
  /\ (MaxConcurrentIOs cfg0 <> 0%nat -> Wait_returns ioc = true -> ctxDone ioc = true).
Proof.
  intros Hrun.
  assert (Hexit : forall j, workers ioc !! j = Some Exited -> ctxDone ioc = true).
  { intros j Hj. destruct (run_exited acts _ _ j Hrun Hj) as [H0|Hd]; [|done].
    cbn in H0. apply lookup_replicate in H0 as [? _]. done. }
  split; [exact Hexit|]. intros Hn Hwait.
  destruct (run_keeps acts _ _ Hrun) as (Hl & _ & _).
  cbn in Hl. rewrite length_replicate in Hl.
  destruct (workers ioc) as [|w ws] eqn:Hws; [cbn in Hl; lia|].
  apply (Hexit 0%nat). cbn. f_equal.
  unfold Wait_returns in Hwait. rewrite Hws in Hwait. cbn in Hwait.
  apply andb_prop in Hwait as [Hw _]. by destruct w.
Qed.

(** Once every worker has returned, a step changes neither that nor the
    number of hand-overs and prefaults of any key. *)
Lemma step_after_exit (k : IOCacheKey) (a : Action) (ioc ioc' : IOCache) :
  Wait_returns ioc = true ->
  step ioc a = Some ioc' ->
  Wait_returns ioc' = true
  /\ enqueues k (events ioc') = enqueues k (events ioc)
  /\ prefaults k (events ioc') = prefaults k (events ioc).
Proof.
  unfold Wait_returns. intros Hall Hstep.
  destruct a; step_cases Hstep;
    try match goal with
        | H : workers _ !! _ = Some _ |- _ =>
            pose proof (forallb_lookup _ _ _ _ Hall H) as Hx; discriminate Hx
        end;
    rewrite ?enqueues_app, ?prefaults_app; cbn; split; (done || lia || auto).
Qed.

Lemma run_after_exit (k : IOCacheKey) (acts : list Action) :
  forall ioc ioc',
    Wait_returns ioc = true ->
    run ioc acts = Some ioc' ->
    Wait_returns ioc' = true
    /\ enqueues k (events ioc') = enqueues k (events ioc)
    /\ prefaults k (events ioc') = prefaults k (events ioc).
Proof.
  induction acts as [|a acts IH]; intros ioc ioc' Hall; cbn [run].
  - by intros [= <-].
  - destruct (step ioc a) as [ioc1|] eqn:Hstep; [|done]. intros Hrun.
    destruct (step_after_exit k a ioc ioc1 Hall Hstep) as (Hall1 & He1 & Hp1).
    destruct (IH ioc1 ioc' Hall1 Hrun) as (Hall' & He' & Hp').
    rewrite He', Hp', He1, Hp1. done.
Qed.

(** With every worker returned there is no one to receive and no one to
    prefault. *)
Lemma exited_blocks (ioc : IOCache) :
  Wait_returns ioc = true ->
  (forall k threadID, loaderSend k threadID ioc = None)
  /\ (forall threadID fhc' err, workerPrefault threadID fhc' err ioc = None).
Proof.
  unfold Wait_returns. intros Hall. split.
  - intros k threadID. unfold loaderSend.
    destruct (loaders ioc !! k) as [[|]|]; [|done|done].
    destruct (workers ioc !! threadID) as [w|] eqn:Hw; [|done].
    pose proof (forallb_lookup _ _ _ _ Hall Hw) as Hx. by destruct w.
  - intros threadID fhc' err. unfold workerPrefault.
    destruct (workers ioc !! threadID) as [w|] eqn:Hw; [|done].
    pose proof (forallb_lookup _ _ _ _ Hall Hw) as Hx. by destruct w.
Qed.

(** X3.  After the last worker has returned nothing is handed over and
    nothing is prefaulted any more, whatever is requested: a run from a
    state in which [Wait] returns leaves the hand-overs and the
    prefaults of every key as they were, [Wait] still returns, and in
    the state reached no send on the queue and no prefault can take
    place.  (A loader blocked in its [select] then has the done case
    alone to go on with.) *)
Theorem no_prefault_after_exit (k : IOCacheKey) (acts : list Action)
    (ioc ioc' : IOCache) :
  Wait_returns ioc = true ->
  run ioc acts = Some ioc' ->
  Wait_returns ioc' = true
  /\ enqueues k (events ioc') = enqueues k (events ioc)
  /\ prefaults k (events ioc') = prefaults k (events ioc)
  /\ (forall k' threadID, step ioc' (ALoaderSend k' threadID) = None)
  /\ (forall threadID fhc' err, step ioc' (AWorkerPrefault threadID fhc' err) = None).
Proof.
  intros Hall Hrun.
  destruct (run_after_exit k acts ioc ioc' Hall Hrun) as (Hall' & He & Hp).
  destruct (exited_blocks ioc' Hall') as [Hsend Hprefault].
  split; [exact Hall'|]. split; [exact He|]. split; [exact Hp|].
  split; [exact Hsend|exact Hprefault].
Qed.

Lemma enqueues_mono (k : IOCacheKey) (evs new : list Event) :
  (enqueues k evs <= enqueues k (evs ++ new))%nat.
Proof. rewrite enqueues_app. lia. Qed.

(** While the context is not done, a marker that is stored or about to
    be stored stands for a hand-over. *)
Lemma step_marker_enqueued (k : IOCacheKey) (a : Action) (ioc ioc' : IOCache) :
  (ctxDone ioc = false ->
   k ∈ c ioc \/ loaders ioc !! k = Some AtReturn ->
   (1 <= enqueues k (events ioc))%nat) ->
  step ioc a = Some ioc' ->
  ctxDone ioc' = false ->
  k ∈ c ioc' \/ loaders ioc' !! k = Some AtReturn ->
  (1 <= enqueues k (events ioc'))%nat.
Proof.
  intros HJ Hstep Hd Hk.
  assert (Hold : k ∈ c ioc \/ loaders ioc !! k = Some AtReturn ->
                 forall new, (1 <= enqueues k (events ioc ++ new))%nat).
  { intros Hc new. etrans; [|apply enqueues_mono].
    apply HJ; [|done]. destruct a; step_cases Hstep; congruence. }
  destruct a as [k'|k' w|k'|k'|w fhc' err|w| |k'|k'|]; step_cases Hstep;
    try congruence; try (by apply Hold).
  - apply Hold. destruct Hk as [Hk|Hk]; [by left|right].
    destruct (decide (k' = k)) as [->|Hne].
    + by rewrite lookup_insert_eq in Hk.
    + by rewrite lookup_insert_ne in Hk.
  - destruct (decide (k' = k)) as [->|Hne].
    + rewrite enqueues_app. unfold enqueues at 2. cbn.
      rewrite bool_decide_true by done. cbn. lia.
    + apply Hold. destruct Hk as [Hk|Hk]; [by left|right].
      by rewrite lookup_insert_ne in Hk.
  - apply Hold. destruct (decide (k' = k)) as [->|Hne]; [by right|].
    destruct Hk as [Hk|Hk].
    + left. apply elem_of_union in Hk as [Hk%elem_of_singleton|Hk]; [congruence|done].
    + right. by rewrite lookup_delete_ne in Hk.
  - rewrite <- app_assoc. apply Hold. destruct Hk as [Hk|Hk]; [left|by right].
    by apply elem_of_difference in Hk as [Hk _].
  - apply Hold. destruct Hk as [Hk|Hk]; [left|by right].
    by apply elem_of_difference in Hk as [Hk _].
  - apply Hold. destruct Hk as [Hk|Hk]; [left|by right].
    by apply elem_of_difference in Hk as [Hk _].
  - apply Hold. destruct Hk as [Hk|Hk]; [|by right].
    by apply not_elem_of_empty in Hk.
Qed.

Lemma run_marker_enqueued (k : IOCacheKey) (acts : list Action) :
  forall ioc ioc',
    (ctxDone ioc = false ->
     k ∈ c ioc \/ loaders ioc !! k = Some AtReturn ->
     (1 <= enqueues k (events ioc))%nat) ->
    run ioc acts = Some ioc' ->
    ctxDone ioc' = false ->
    k ∈ c ioc' \/ loaders ioc' !! k = Some AtReturn ->
    (1 <= enqueues k (events ioc'))%nat.
Proof.
  induction acts as [|a acts IH]; intros ioc ioc' HJ; cbn [run].
  - intros [= <-]. done.
  - destruct (step ioc a) as [ioc1|] eqn:Hstep; [|done].
    apply IH. by apply (step_marker_enqueued k a ioc).
Qed.

(** X4.  Short of a shutdown no marker is stored for a key that was not
    handed to a worker: in every run from [New] that ends with the
    context not done, a key with a marker in the cache was enqueued. *)
Theorem marker_means_enqueued
    (cfg0 : IOCacheConfig) (fhc : fhcache.FileHandleCache) (acts : list Action)
    (ioc : IOCache) (k : IOCacheKey) :
  run (New cfg0 fhc) acts = Some ioc ->
  ctxDone ioc = false ->
  k ∈ c ioc ->
  (1 <= enqueues k (events ioc))%nat.
Proof.
  intros Hrun Hd Hk. apply (run_marker_enqueued k acts (New cfg0 fhc) ioc); auto.
  cbn. intros _ [Hin|Hl]; [by apply not_elem_of_empty in Hin|].
  by rewrite lookup_empty in Hl.
Qed.

Lemma run_app (acts1 acts2 : list Action) (ioc : IOCache) :
  run ioc (acts1 ++ acts2)
  = match run ioc acts1 with
    | Some ioc1 => run ioc1 acts2
    | None => None
    end.
Proof.
  revert ioc. induction acts1 as [|a acts1 IH]; intros ioc; [done|].
  cbn. destruct (step ioc a); [apply IH|done].
Qed.

Lemma insert_middle (done ws : list WorkerPC) (w x : WorkerPC) :
  <[length done := x]> (done ++ w :: ws) = done ++ x :: ws.
Proof.
  rewrite <- (Nat.add_0_r (length done)). by rewrite insert_app_r.
Qed.

(** The workers from [length done] on leave one after the other. *)
Lemma drainWorkers_runs (answers : nat -> fhcache.FileHandleCache * error)
    (ws : list WorkerPC) :
  forall (done : list WorkerPC) (ioc : IOCache),
    ctxDone ioc = true ->
    workers ioc = done ++ ws ->
    forallb hasExited done = true ->
    exists ioc',
      run ioc (drainWorkers answers ws (length done)) = Some ioc'
      /\ Wait_returns ioc' = true.
Proof.
  induction ws as [|w ws IH]; intros done ioc Hd Hws Hdone.
  - exists ioc. split; [done|]. unfold Wait_returns.
    by rewrite Hws, app_nil_r.
  - assert (Hnext : forall ioc1,
              ctxDone ioc1 = true ->
              workers ioc1 = done ++ Exited :: ws ->
              exists ioc',
                run ioc1 (drainWorkers answers ws (S (length done))) = Some ioc'
                /\ Wait_returns ioc' = true).
    { intros ioc1 Hd1 Hws1.
      replace (S (length done)) with (length (done ++ [Exited]))
        by (rewrite length_app; cbn; lia).
      apply IH; [done|by rewrite <- app_assoc|].
      rewrite forallb_app, Hdone. done. }
    assert (Hw : workers ioc !! length done = Some w)
      by (rewrite Hws; by apply list_lookup_middle).
    cbn [drainWorkers]. rewrite run_app. destruct w as [|ioReq|].
    + cbn [run step]. unfold workerCtxDone. rewrite Hw, Hd.
      apply Hnext; fields; [done|]. by rewrite Hws, insert_middle.
    + destruct (answers (length done)) as [fhc' err]. cbn [fst snd run step].
      unfold workerPrefault. rewrite Hw.
      unfold workerCtxDone.
      destruct err as [e|]; fields;
        (rewrite list_lookup_insert_eq
           by (rewrite Hws, length_app; cbn; lia));
        rewrite Hd; (apply Hnext; fields; [done|]);
        by rewrite list_insert_insert_eq, Hws, insert_middle.
    + cbn [run]. by apply Hnext.
Qed.

(** X5.  A shutdown lets every worker go, whatever [PrefaultPage]
    answers to the requests still held: from any state, cancelling the
    context and letting each worker finish the request it holds, if any,
    and take the done case of its [select], ends in a state where [Wait]
    returns. *)
Theorem workers_drain_after_cancel
    (answers : nat -> fhcache.FileHandleCache * error) (ioc : IOCache) :
  exists ioc',
    run ioc (ACancel :: drainWorkers answers (workers ioc) 0) = Some ioc'
    /\ Wait_returns ioc' = true.
Proof.
  cbn [run step].
  apply (drainWorkers_runs answers (workers ioc) [] (set_ctxDone true ioc)); done.
Qed.

(** X6.  [Purge] empties the cache and leaves the loader calls in flight
    alone: right after it every request misses, and a loader that was
    about to return when the purge ran stores its marker after it, so
    that the cache then holds that one key. *)
Theorem Purge_overtaken_by_loader (ioc : IOCache) (k : IOCacheKey) :
  (forall k', (GetIFPresent k' (Purge ioc)).2 = (None, Some KeyNotFoundError))
  /\ (loaders ioc !! k = Some AtReturn ->
      exists ioc',
        run ioc [APurge; ALoaderReturn k] = Some ioc'
        /\ c ioc' = {[k]}
        /\ events ioc' = events ioc ++ [EvPurge; EvStore k (TTL (cfg ioc))]).
Proof.
  split.
  - intros k'. unfold GetIFPresent, Purge. fields.
    rewrite decide_False by apply not_elem_of_empty.
    by destruct (loaders ioc !! k').
  - intros Hl. cbn [run step]. unfold loaderReturn, Purge. fields. rewrite Hl.
    eexists. split; [done|]. fields.
    split; [by rewrite union_empty_r_L|by rewrite <- app_assoc].
Qed.

(** X7.  A marker leaves the cache in four ways only: its TTL runs out,
    it is evicted, the cache is purged, or a worker's prefault of that
    key fails.  No request, no loader step, no successful prefault and no
    cancellation takes a marker away. *)
Theorem marker_dropped_only_by (k : IOCacheKey) (a : Action) (ioc ioc' : IOCache) :
  step ioc a = Some ioc' ->
  k ∈ c ioc ->
  k ∉ c ioc' ->
  a = AExpire k \/ a = AEvict k \/ a = APurge
  \/ exists threadID fhc' e,
       a = AWorkerPrefault threadID fhc' (Some e)
       /\ workers ioc !! threadID = Some (AtPrefault k).
Proof.
  intros Hstep Hin Hout.
  destruct a as [k'|k' w|k'|k'|w fhc' err|w| |k'|k'|]; step_cases Hstep;
    try done; try (by destruct Hout; apply elem_of_union_r).
  - right. right. right. exists w, fhc', e. split; [done|].
    destruct (decide (ioReq = k)) as [->|Hne]; [done|].
    destruct Hout. apply elem_of_difference. split; [done|].
    intros Heq%elem_of_singleton. congruence.
  - left. f_equal. destruct (decide (k' = k)) as [->|Hne]; [done|].
    destruct Hout. apply elem_of_difference. split; [done|].
    intros Heq%elem_of_singleton. congruence.
  - right. left. f_equal. destruct (decide (k' = k)) as [->|Hne]; [done|].
    destruct Hout. apply elem_of_difference. split; [done|].
    intros Heq%elem_of_singleton. congruence.
  - auto.
Qed.

End Workers.

(** * The agent: outcomes of a pass *)

Section Passes.
Import agent frames.
Variable env : Env.

Lemma dbState_returns (w : World) :
  validMode env ->
  exists st err w',
    dbState env w = (Returns (st, err), w')
    /\ (err = None -> st <> _DBStateUnknown).
Proof.
  intros [H|[H|H]]; unfold dbState; rewrite H; cbn [String.eqb Ascii.eqb Bool.eqb].
  - by eexists _, _, _.
  - by eexists _, _, _.
  - run_M. destruct (pg_is_in_recovery env (trace w)) as [e|[|]]; by eexists _, _, _.
Qed.

Lemma queryLag_follower_returns (w : World) :
  exists r,
    queryLag env _QueryLagFollower w
    = (Returns r, {| self := self w; trace := trace w ++ [EvQueryEx (LagFollower env)] |}).
Proof.
  unfold queryLag. cbn [queryLag_sql]. run_M.
  destruct (QueryEx env (trace w) (LagFollower env)) as [e|rows rowsErr]; [by eexists|].
  destruct (queryLag_rows rows LagVars_init) as [e|vars]; [by eexists|].
  destruct rowsErr; by eexists.
Qed.

Lemma dbState_invalid_mode (w : World) :
  ~ validMode env ->
  dbState env w = (Panics (PanicSprintf "invalid mode: %q" (pgMode env)), w).
Proof.
  intros Hmode. unfold dbState, validMode in *.
  destruct (String.eqb_spec (pgMode env) "primary"); [tauto|].
  destruct (String.eqb_spec (pgMode env) "follower"); [tauto|].
  destruct (String.eqb_spec (pgMode env) "auto"); [tauto|]. done.
Qed.

Lemma predictDBWALFilenames_invalid_mode (walFile : WALFilename) (w : World) :
  ~ validMode env ->
  predictDBWALFilenames env walFile w
  = (Panics (PanicSprintf "invalid mode: %q" (pgMode env)), w).
Proof.
  intros Hmode. unfold predictDBWALFilenames, mbind, M_bind.
  by rewrite dbState_invalid_mode.
Qed.

Lemma predictDBWALFilenames_valid_mode (walFile : WALFilename) (w : World) :
  validMode env ->
  exists r w', predictDBWALFilenames env walFile w = (Returns r, w').
Proof.
  intros Hmode. unfold predictDBWALFilenames.
  destruct (dbState_returns w Hmode) as (st & err & w1 & Hs & Hknown).
  rewrite (bind_returns _ _ _ _ _ Hs). destruct err as [e|].
  { run_M. by eexists _, _. }
  destruct st; [by destruct Hknown|run_M; by eexists _, _|].
  destruct (queryLag_follower_returns w1) as [[lag err] Hl].
  rewrite (bind_returns _ _ _ _ _ Hl). destruct err as [e|].
  { run_M. by eexists _, _. }
  run_M. destruct (ParseWalfile env walFile) as [[timelineID lsn] [e|]];
    run_M; by eexists _, _.
Qed.

(** X8.  With the pool there and the mode primary, follower or auto,
    [predictDBWALFilenames] returns, whatever PostgreSQL answers; on
    any other [pg.mode] it panics in [dbState], with the mode in the
    message; and its own panic, the one for an unknown state, never
    happens, for [dbState] reports that state with an error only. *)
Theorem predictDBWALFilenames_returns (walFile : WALFilename) (w : World) :
  (pool (self w) = true ->
   validMode env ->
   exists r w', predictDBWALFilenames env walFile w = (Returns r, w'))
  /\ (~ validMode env ->
      predictDBWALFilenames env walFile w
      = (Panics (PanicSprintf "invalid mode: %q" (pgMode env)), w))
  /\ (forall arg,
        (predictDBWALFilenames env walFile w).1
        <> Panics (PanicSprintf "unknown state: %+v" arg)).
Proof.
  split; [intros _; by apply predictDBWALFilenames_valid_mode|].
  split; [by apply predictDBWALFilenames_invalid_mode|].
  intros arg.
  destruct (decide (pgMode env = "primary" \/ pgMode env = "follower"
                    \/ pgMode env = "auto")) as [Hmode|Hmode].
  - destruct (predictDBWALFilenames_valid_mode walFile w Hmode) as (r & w' & ->).
    discriminate.
  - rewrite (predictDBWALFilenames_invalid_mode walFile w Hmode). discriminate.
Qed.

Lemma observeWALFile_returns (walFile : WALFilename) (numWALFiles : N) (w : World) :
  exists numWALFiles' w',
    observeWALFile walFile numWALFiles w = (Returns numWALFiles', w')
    /\ trace w' = trace w
    /\ lastWALLog (self w') = walFile.
Proof.
  unfold observeWALFile. run_M.
  destruct (String.eqb_spec (lastWALLog (self w)) walFile) as [Heq|Hne]; run_M.
  - by eexists _, _.
  - by eexists _, _.
Qed.

Lemma getWALFilesDB_loop_returns (timelineID : TimelineID) (oldLSNs : list LSN) :
  validMode env ->
  forall numWALFiles walFiles w,
    exists l w',
      getWALFilesDB_loop env timelineID oldLSNs numWALFiles walFiles w = (Returns l, w').
Proof.
  intros Hmode.
  induction oldLSNs as [|oldLSN rest IH]; intros numWALFiles walFiles w;
    cbn [getWALFilesDB_loop].
  - by eexists _, _.
  - rewrite (bind_returns (emit _) _ w _ tt eq_refl).
    match goal with
    | |- context [(observeWALFile ?f ?n ≫= _) ?w1] =>
        destruct (observeWALFile_returns f n w1) as (n' & w2 & Hobs & _)
    end.
    rewrite (bind_returns _ _ _ _ _ Hobs).
    match goal with
    | |- context [(predictDBWALFilenames env ?f ≫= _) w2] =>
        destruct (predictDBWALFilenames_valid_mode f w2 Hmode)
          as ([predicted err] & w3 & Hpred)
    end.
    rewrite (bind_returns _ _ _ _ _ Hpred). destruct err as [e|].
    + rewrite (bind_returns (emit _) _ w3 _ tt eq_refl). apply IH.
    + apply IH.
Qed.

Lemma ensureDBPool_cases (w : World) :
  exists err w1,
    ensureDBPool env w = (Returns err, w1)
    /\ (pool (self w) = true -> err = None /\ w1 = w)
    /\ (err = None ->
        pool (self w1) = true /\ ensureDBPool env w1 = (Returns None, w1))
    /\ (err <> None ->
        pool (self w1) = false /\ trace w1 = trace w ++ [EvNewConnPool]).
Proof.
  unfold ensureDBPool. run_M. destruct (pool (self w)) eqn:Hp.
  - exists None, w. destruct w as [a tr]; cbn in *. rewrite Hp. done.
  - run_M. destruct (NewConnPool env (trace w)) as [e|]; run_M.
    + eexists _, _. split; [done|]. split; [done|]. split; [done|]. by intros _.
    + eexists _, _. split; [done|]. split; [done|]. split; [done|]. done.
Qed.

(** X9.  [ensureDBPool] makes the pool once: it always returns; when
    the pool is there it does nothing; when it returns nil the pool is
    there and a second call does nothing and makes no new pool; when it
    returns an error the pool is still missing, so that the next call
    tries again. *)
Theorem ensureDBPool_once (w : World) :
  exists err w1,
    ensureDBPool env w = (Returns err, w1)
    /\ (pool (self w) = true -> err = None /\ w1 = w)
    /\ (err = None ->
        pool (self w1) = true /\ ensureDBPool env w1 = (Returns None, w1))
    /\ (err <> None ->
        pool (self w1) = false /\ trace w1 = trace w ++ [EvNewConnPool]).
Proof. apply ensureDBPool_cases. Qed.

Lemma purges_one (e : Event) : purges [e] = (if isPurge e then 1 else 0)%nat.
Proof. unfold purges. cbn. by destruct (isPurge e). Qed.

(** X10.  Whatever fails or panics in it, a pass of [getWALFilesDB]
    purges the caches once at the most; it purges only when it leaves a
    timeline that is not zero for a different one; and when it does not
    purge, the caches are as they were before the pass. *)
Theorem getWALFilesDB_purges_at_most_once (w : World) :
  exists tr,
    trace (getWALFilesDB env w).2 = trace w ++ tr
    /\ (purges tr <= 1)%nat
    /\ (purges tr = 1%nat ->
        lastTimelineID (self w) <> 0
        /\ lastTimelineID (self (getWALFilesDB env w).2) <> lastTimelineID (self w))
    /\ (purges tr = 0%nat ->
        walCache (self (getWALFilesDB env w).2) = walCache (self w)).
Proof.
  destruct (ensureDBPool_cases w) as (err & w0 & Hpool & _).
  pose proof (keepsCaches_ensureDBPool env w) as (Ht0 & Hc0 & tr0 & Htr0 & Hp0).
  rewrite Hpool in Ht0, Hc0, Htr0. cbn [snd] in Ht0, Hc0, Htr0.
  unfold getWALFilesDB. rewrite (bind_returns _ _ _ _ _ Hpool).
  destruct err as [e|].
  { run_M. exists tr0. rewrite Hp0. repeat split; [done|lia|done..]. }
  set (w1 := {| self := self w0; trace := trace w0 ++ [EvQueryOldestLSNs] |}).
  rewrite (bind_returns getTrace _ w0 w0 (trace w0) eq_refl).
  rewrite (bind_returns (emit EvQueryOldestLSNs) _ w0 w1 tt eq_refl).
  destruct (QueryOldestLSNs env (trace w0)) as [[timelineID oldLSNs] [e|]].
  { run_M. exists (tr0 ++ [EvQueryOldestLSNs]).
    rewrite purges_app, Hp0, Htr0, app_assoc. cbn. repeat split; [lia|done..]. }
  pose proof (observeTimeline_returns timelineID w1) as Hobs. cbv zeta in Hobs.
  match type of Hobs with _ = (_, ?x) => set (w2 := x) in * end.
  rewrite (bind_returns _ _ _ _ _ Hobs).
  match goal with
  | |- context [trace (?m w2).2] =>
      assert (Hrest : keepsCaches m);
      [apply keepsCaches_bind; [apply keepsCaches_getWALFilesDB_loop|];
       intros walFiles; apply keepsCaches_ret|];
      pose proof (Hrest w2) as Hk; clear Hrest; revert Hk;
      destruct (m w2) as [o3 w3]; cbn [snd]; intros (Ht & Hc & post & Htr & Hp)
  end.
  clear Hobs.
  assert (Hs2 : self w2
                = if negb (lastTimelineID (self w) =? timelineID) then
                    set_lastTimelineID timelineID
                      (if negb (lastTimelineID (self w) =? 0) then
                         set_walCache (WALCache_Purge (walCache (self w0))) (self w0)
                       else self w0)
                  else self w0)
    by (subst w2 w1; cbn [self]; by rewrite Ht0).
  assert (Ht2 : trace w2
                = (trace w0 ++ [EvQueryOldestLSNs])
                  ++ (if negb (lastTimelineID (self w) =? timelineID)
                         && negb (lastTimelineID (self w) =? 0)
                      then [EvWALCachePurge] else []))
    by (subst w2 w1; cbn [self trace]; by rewrite Ht0).
  clearbody w2. rewrite Hs2 in Ht, Hc. rewrite Ht2 in Htr. clear Hs2 Ht2.
  destruct (N.eqb_spec (lastTimelineID (self w)) timelineID) as [Heq|Hne];
    [|destruct (N.eqb_spec (lastTimelineID (self w)) 0) as [Hz|Hnz]];
    cbn [negb andb] in Ht, Hc, Htr.
  - exists (tr0 ++ [EvQueryOldestLSNs] ++ post).
    rewrite Htr, Htr0, !purges_app, Hp0, Hp, app_nil_r, Hc, <- !app_assoc.
    cbn. repeat split; [lia|done..].
  - exists (tr0 ++ [EvQueryOldestLSNs] ++ post).
    rewrite Htr, Htr0, !purges_app, Hp0, Hp, app_nil_r, Hc, <- !app_assoc.
    cbn. repeat split; [lia|done..].
  - exists (tr0 ++ [EvQueryOldestLSNs; EvWALCachePurge] ++ post).
    rewrite Htr, Htr0, !purges_app, Hp0, Hp, Ht, <- !app_assoc.
    cbn. repeat split; [lia|done|congruence|done].
Qed.

(** X11.  With a valid [pg.mode] a pass of [getWALFilesDB] returns: it
    does not panic.  Its error is nil exactly when the pool is there and
    [QueryOldestLSNs] succeeded, and then the list is not nil, whatever
    went wrong while predicting: those errors are logged and dropped.
    With an error the list is nil. *)
Theorem getWALFilesDB_returns (w : World) :
  validMode env ->
  exists walFiles err w',
    getWALFilesDB env w = (Returns (walFiles, err), w')
    /\ (err = None <-> walFiles <> None)
    /\ (err = None <->
        exists w0 timelineID oldLSNs,
          ensureDBPool env w = (Returns None, w0)
          /\ QueryOldestLSNs env (trace w0) = (timelineID, oldLSNs, None)).
Proof.
  intros Hmode. destruct (ensureDBPool_cases w) as (err & w0 & Hpool & _).
  unfold getWALFilesDB. rewrite (bind_returns _ _ _ _ _ Hpool).
  destruct err as [e|].
  { run_M. eexists _, _, _. split; [done|]. split; [done|].
    split; [done|]. intros (w0' & tl & lsns & Hp & _). congruence. }
  rewrite (bind_returns getTrace _ w0 w0 (trace w0) eq_refl).
  rewrite (bind_returns (emit EvQueryOldestLSNs) _ w0 _ tt eq_refl).
  destruct (QueryOldestLSNs env (trace w0)) as [[timelineID oldLSNs] [e|]] eqn:Hq.
  { run_M. eexists _, _, _. split; [done|]. split; [done|].
    split; [done|]. intros (w0' & tl & lsns & Hp & Hq'). congruence. }
  rewrite (bind_returns _ _ _ _ _ (observeTimeline_returns timelineID _)).
  match goal with
  | |- context [(getWALFilesDB_loop env ?t ?ls ?n ?fs ≫= _) ?w2] =>
      destruct (getWALFilesDB_loop_returns t ls Hmode n fs w2) as (l & w3 & Hloop)
  end.
  rewrite (bind_returns _ _ _ _ _ Hloop). run_M.
  eexists _, _, _. split; [done|]. split; [done|].
  split; [|done]. intros _. by exists w0, timelineID, oldLSNs.
Qed.

(** A loop whose predictions all come back without a file (with an
    error, or with an empty list) returns the files it started with. *)
Lemma getWALFilesDB_loop_no_files (timelineID : TimelineID) (oldLSNs : list LSN) :
  (forall f w, exists r err w',
      predictDBWALFilenames env f w = (Returns (r, err), w')
      /\ (err = None -> slice_elems r = [])) ->
  forall numWALFiles walFiles w,
    exists w',
      getWALFilesDB_loop env timelineID oldLSNs numWALFiles walFiles w
      = (Returns walFiles, w').
Proof.
  intros Hpredict.
  induction oldLSNs as [|oldLSN rest IH]; intros numWALFiles walFiles w;
    cbn [getWALFilesDB_loop].
  - by eexists.
  - rewrite (bind_returns (emit _) _ w _ tt eq_refl).
    match goal with
    | |- context [(observeWALFile ?f ?n ≫= _) ?w1] =>
        destruct (observeWALFile_returns f n w1) as (n' & w2 & Hobs & _)
    end.
    rewrite (bind_returns _ _ _ _ _ Hobs).
    match goal with
    | |- context [(predictDBWALFilenames env ?f ≫= _) w2] =>
        destruct (Hpredict f w2) as (predicted & err & w3 & Hpred & Hnone)
    end.
    rewrite (bind_returns _ _ _ _ _ Hpred). destruct err as [e|].
    + rewrite (bind_returns (emit _) _ w3 _ tt eq_refl). apply IH.
    + rewrite (Hnone eq_refl), app_nil_r. apply IH.
Qed.

Lemma getWALFilesDB_no_files (w w0 : World) (timelineID : TimelineID) (oldLSNs : list LSN) :
  (forall f w, exists r err w',
      predictDBWALFilenames env f w = (Returns (r, err), w')
      /\ (err = None -> slice_elems r = [])) ->
  ensureDBPool env w = (Returns None, w0) ->
  QueryOldestLSNs env (trace w0) = (timelineID, oldLSNs, None) ->
  (getWALFilesDB env w).1 = Returns (Some [], None).
Proof.
  intros Hpredict Hpool Hq. unfold getWALFilesDB.
  rewrite (bind_returns _ _ _ _ _ Hpool).
  rewrite (bind_returns getTrace _ w0 w0 (trace w0) eq_refl).
  rewrite (bind_returns (emit EvQueryOldestLSNs) _ w0 _ tt eq_refl).
  rewrite Hq.
  rewrite (bind_returns _ _ _ _ _ (observeTimeline_returns timelineID _)).
  match goal with
  | |- context [(getWALFilesDB_loop env ?t ?ls ?n ?fs ≫= _) ?w2] =>
      destruct (getWALFilesDB_loop_no_files t ls Hpredict n fs w2) as (w3 & Hloop)
  end.
  by rewrite (bind_returns _ _ _ _ _ Hloop).
Qed.

(** X12.  In mode primary a pass that reaches PostgreSQL returns the
    empty list and nil, however many LSNs PostgreSQL reports: every
    prediction is the primary's empty one. *)
Theorem getWALFilesDB_primary_mode
    (w w0 : World) (timelineID : TimelineID) (oldLSNs : list LSN) :
  pgMode env = "primary" ->
  ensureDBPool env w = (Returns None, w0) ->
  QueryOldestLSNs env (trace w0) = (timelineID, oldLSNs, None) ->
  (getWALFilesDB env w).1 = Returns (Some [], None).
Proof.
  intros Hmode. apply getWALFilesDB_no_files. intros f w1.
  exists (Some []), None, w1. split; [|done].
  unfold predictDBWALFilenames, dbState. rewrite Hmode. done.
Qed.

(** X13.  A follower whose lag query fails every time gets the empty
    list and a nil error from a pass that reaches PostgreSQL: each
    prediction fails, is logged and skipped, and nothing tells the
    caller. *)
Theorem getWALFilesDB_swallows_lag_failure
    (w w0 : World) (timelineID : TimelineID) (oldLSNs : list LSN) :
  pgMode env = "follower" ->
  (forall tr, exists e, QueryEx env tr (LagFollower env) = QueryFails e) ->
  ensureDBPool env w = (Returns None, w0) ->
  QueryOldestLSNs env (trace w0) = (timelineID, oldLSNs, None) ->
  (getWALFilesDB env w).1 = Returns (Some [], None).
Proof.
  intros Hmode Hlag. apply getWALFilesDB_no_files. intros f w1.
  destruct (Hlag (trace w1)) as [e He].
  unfold predictDBWALFilenames, dbState, queryLag. rewrite Hmode.
  cbn [String.eqb Ascii.eqb Bool.eqb queryLag_sql]. run_M. rewrite He. run_M.
  by eexists _, _, _.
Qed.

(** X14.  When the rows of the lag query all scan and [rows.Err()] then
    reports a failure, [queryLag] hands [math.MaxInt64] and nil to
    [predictDBWALFilenames], which takes it for a lag: the readahead is
    the full configured one. *)
Theorem predictDBWALFilenames_unknown_lag_full_readahead
    (walFile : WALFilename) (w w1 : World) (rs : list LagRow) (e : error_value)
    (timelineID : TimelineID) (lsn : LSN) :
  dbState env w = (Returns (_DBStateFollower, None), w1) ->
  QueryEx env (trace w1) (LagFollower env) = QueryRows (map ScanOK rs) (Some e) ->
  ParseWalfile env walFile = (timelineID, lsn, None) ->
  (ReadaheadBytes env <= MaxInt64)%Z ->
  (predictDBWALFilenames env walFile w).1
  = Returns (LSN_Readahead env lsn timelineID (ReadaheadBytes env), None).
Proof.
  intros Hs Hq Hp Hmax. unfold predictDBWALFilenames.
  rewrite (bind_returns _ _ _ _ _ Hs).
  assert (Hl : queryLag env _QueryLagFollower w1
               = (Returns (unknownLag, None),
                  {| self := self w1;
                     trace := trace w1 ++ [EvQueryEx (LagFollower env)] |})).
  { unfold queryLag. cbn [queryLag_sql]. run_M. rewrite Hq.
    destruct (queryLag_rows_err rs LagVars_init eq_refl) as [vars [-> Herr]].
    by rewrite Herr. }
  rewrite (bind_returns _ _ _ _ _ Hl). run_M. rewrite Hp. run_M.
  unfold unknownLag. rewrite Z.gtb_ltb.
  destruct (Z.ltb_spec MaxInt64 (ReadaheadBytes env)); [lia|done].
Qed.

End Passes.

(** ** What the two file readers return *)

Section Files.
Import agent numerals.

Lemma cutoff_value : (two64 - 1) / 10 + 1 = 1844674407370955162.
Proof. reflexivity. Qed.

(** The digit loop on any 64-bit bound: digits whose value fits are
    read as that value. *)
Lemma ParseUint_loop_fits (s : string) (acc maxVal : N) :
  allDigits s = true ->
  maxVal < two64 ->
  decimalValue s acc <= maxVal ->
  ParseUint_loop s acc ((two64 - 1) / 10 + 1) maxVal = (decimalValue s acc, None).
Proof.
  rewrite cutoff_value. intros Hd Hmax. revert acc Hd. unfold two64 in Hmax.
  induction s as [|ch s IH]; intros acc Hd Hv; [done|].
  cbn in Hd. apply andb_prop in Hd as [Hch Hs].
  cbn [ParseUint_loop decimalValue] in *. rewrite Hch.
  apply isDigit_spec in Hch.
  pose proof (decimalValue_ge s (acc * 10 + (N_of_ascii ch - 48))) as Hge.
  assert (Hlt : (1844674407370955162 <=? acc) = false) by (apply N.leb_gt; lia).
  rewrite Hlt. unfold two64.
  rewrite (N.mod_small (acc * 10)) by lia.
  rewrite (N.mod_small (acc * 10 + _)) by lia.
  assert (Hok : ((acc * 10 + (N_of_ascii ch - 48) <? acc * 10)
                 || (maxVal <? acc * 10 + (N_of_ascii ch - 48))) = false).
  { apply orb_false_intro; apply N.ltb_ge; lia. }
  rewrite Hok. by apply IH.
Qed.

(** What the digit loop returns: with a nil error the string is all
    digits and the value is theirs, within [maxVal] once a digit was
    read; with an error the value is 0 (syntax) or [maxVal] (range). *)
Lemma ParseUint_loop_sound (s : string) (acc maxVal v : N) (err : error) :
  ParseUint_loop s acc ((two64 - 1) / 10 + 1) maxVal = (v, err) ->
  match err with
  | None =>
      allDigits s = true /\ v = decimalValue s acc
      /\ (s <> EmptyString -> v <= maxVal)
  | Some e => (v = 0 /\ e = ErrSyntax) \/ (v = maxVal /\ e = ErrRange)
  end.
Proof.
  rewrite cutoff_value. revert acc.
  induction s as [|ch s IH]; intros acc; cbn [ParseUint_loop].
  { intros [= <- <-]. done. }
  destruct (isDigit ch) eqn:Hch; [|intros [= <- <-]; by left].
  destruct (N.leb_spec 1844674407370955162 acc) as [|Hcut];
    [intros [= <- <-]; by right|].
  pose proof (isDigit_spec _ Hch) as Hd.
  unfold two64. rewrite (N.mod_small (acc * 10)) by lia.
  set (d := N_of_ascii ch - 48). assert (d <= 9) by (unfold d; lia).
  destruct (N.lt_ge_cases (acc * 10 + d) 18446744073709551616) as [Hsmall|Hbig].
  - rewrite (N.mod_small (acc * 10 + d)) by done.
    destruct (N.ltb_spec (acc * 10 + d) (acc * 10)) as [|_]; [lia|].
    destruct (N.ltb_spec maxVal (acc * 10 + d)) as [|Hmax]; cbn [orb];
      [intros [= <- <-]; by right|].
    intros Hrest. specialize (IH _ Hrest). destruct err as [e|]; [done|].
    destruct IH as (Hall & Hv & Hle). cbn [allDigits decimalValue].
    rewrite Hch, Hall. fold d. split; [done|]. split; [done|]. intros _.
    destruct s as [|ch' s']; [cbn in Hv; lia|by apply Hle].
  - assert (Hwrap : (acc * 10 + d) mod 18446744073709551616
                    = acc * 10 + d - 18446744073709551616).
    { symmetry. apply (N.mod_unique _ _ 1); lia. }
    rewrite Hwrap.
    destruct (N.ltb_spec (acc * 10 + d - 18446744073709551616) (acc * 10)) as [_|]; [|lia].
    cbn [orb]. intros [= <- <-]. by right.
Qed.

Lemma strconv_ParseUint_sound (s : string) (bitSize v : N) (err : error) :
  strconv_ParseUint s bitSize = (v, err) ->
  match err with
  | None =>
      s <> EmptyString /\ allDigits s = true /\ v = decimalValue s 0
      /\ v <= 2 ^ bitSize - 1
  | Some e => v = 0 \/ v = 2 ^ bitSize - 1
  end.
Proof.
  unfold strconv_ParseUint. destruct s as [|ch s].
  { intros [= <- <-]. by left. }
  destruct (ParseUint_loop _ _ _ _) as [n [e|]] eqn:Hloop;
    apply ParseUint_loop_sound in Hloop; intros [= <- <-].
  - destruct Hloop as [[-> _]|[-> _]]; [by left|by right].
  - destruct Hloop as (Hall & Hv & Hle). split; [done|]. split; [done|].
    split; [done|]. by apply Hle.
Qed.

Lemma strconv_ParseUint_fits (s : string) (bitSize : N) :
  allDigits s = true ->
  s <> EmptyString ->
  bitSize <= 64 ->
  decimalValue s 0 <= 2 ^ bitSize - 1 ->
  strconv_ParseUint s bitSize = (decimalValue s 0, None).
Proof.
  intros Hd Hne Hbits Hv. unfold strconv_ParseUint. destruct s as [|ch s]; [done|].
  rewrite ParseUint_loop_fits; [done|done| |done].
  assert (2 ^ bitSize <= 2 ^ 64) by (apply N.pow_le_mono_r; lia).
  assert (2 ^ bitSize <> 0) by (apply N.pow_nonzero; lia).
  change two64 with (2 ^ 64). lia.
Qed.

(** [strings.Split] always gives a first part, and a line with one part
    is that part. *)
Lemma strings_Split_first (s : string) (sep : ascii) :
  exists part parts, strings_Split s sep = part :: parts.
Proof.
  induction s as [|ch s (part & parts & IH)]; cbn [strings_Split]; [by eexists _, _|].
  destruct (Ascii.eqb ch sep); [by eexists _, _|]. rewrite IH. by eexists _, _.
Qed.

Lemma strings_Split_one (s : string) (sep : ascii) (part : string) :
  strings_Split s sep = [part] -> part = s.
Proof.
  revert part. induction s as [|ch s IH]; intros part; cbn [strings_Split].
  { by intros [= <-]. }
  destruct (Ascii.eqb ch sep).
  { destruct (strings_Split_first s sep) as (p & ps & ->). done. }
  destruct (strings_Split_first s sep) as (p & ps & Hs). rewrite Hs in *.
  intros [= <- ->]. by rewrite (IH p eq_refl).
Qed.

Variable fs : FileSystem.

(** X15.  The postmaster PID file read back: a file whose first line is
    a PID below 2^64 written in decimal gives that PID and nil,
    whatever follows the first line. *)
Theorem findPostgreSQLPostmasterPID_reads_back
    {PID : Type} (toPID : N -> PID) (PostgreSQLPIDPath : string)
    (pid : N) (rest : option string) :
  ioutil_ReadFile fs PostgreSQLPIDPath = inr (fileOf (format_d pid) rest) ->
  pid < 2 ^ 64 ->
  findPostgreSQLPostmasterPID toPID fs PostgreSQLPIDPath = (toPID pid, None).
Proof.
  intros Hfile Hpid. unfold findPostgreSQLPostmasterPID. rewrite Hfile.
  rewrite scanFirstLine_oneLine;
    [|apply allDigits_oneLine, format_d_allDigits
     |pose proof (format_d_length pid); lia].
  rewrite strconv_ParseUint_fits;
    [|apply format_d_allDigits|apply format_d_nonempty|done
     |rewrite format_d_value by done; lia].
  by rewrite format_d_value.
Qed.

(** X16.  What [findPostgreSQLPostmasterPID] hands back: with an error
    the PID is the zero one; with a nil error the file was read, its
    first line is a non-empty string of decimal digits, and the PID is
    the number they denote, below 2^64.  An empty file is an error. *)
Theorem findPostgreSQLPostmasterPID_sound
    {PID : Type} (toPID : N -> PID) (PostgreSQLPIDPath : string) :
  let '(pid, err) := findPostgreSQLPostmasterPID toPID fs PostgreSQLPIDPath in
  match err with
  | Some _ => pid = toPID 0
  | None =>
      exists buf pidStr,
        ioutil_ReadFile fs PostgreSQLPIDPath = inr buf
        /\ scanFirstLine buf = (pidStr, None)
        /\ pidStr <> EmptyString
        /\ allDigits pidStr = true
        /\ decimalValue pidStr 0 < 2 ^ 64
        /\ pid = toPID (decimalValue pidStr 0)
  end.
Proof.
  unfold findPostgreSQLPostmasterPID.
  destruct (ioutil_ReadFile fs PostgreSQLPIDPath) as [e|buf]; [done|].
  destruct (scanFirstLine buf) as [pidStr [e|]] eqn:Hscan; [done|].
  destruct (strconv_ParseUint pidStr 64) as [pid64 [e|]] eqn:Hparse; [done|].
  apply strconv_ParseUint_sound in Hparse as (Hne & Hall & -> & Hle).
  exists buf, pidStr. repeat (split; [done|]). split; [|done].
  change (2 ^ 64) with 18446744073709551616 in *. lia.
Qed.

Variable pgDataPath : string.

(** X17.  What [getPostgresVersion] returns when it returns: with a nil
    error a multiple of 100 that fits 32 bits (the minor version always
    looks like 0); with an error 0, or 4294967295 when the normalised
    string is out of the 32-bit range, since [pgMajor] is returned as
    [ParseUint] left it. *)
Theorem getPostgresVersion_sound (pgMajor : N) (err : error) :
  getPostgresVersion fs pgDataPath = Returns (pgMajor, err) ->
  match err with
  | None => pgMajor mod 100 = 0 /\ pgMajor <= 4294967295
  | Some _ => pgMajor = 0 \/ pgMajor = 4294967295
  end.
Proof.
  unfold getPostgresVersion.
  destruct (ioutil_ReadFile fs _) as [e|buf]; [intros [= <- <-]; by left|].
  destruct (scanFirstLine buf) as [line [e|]]; [intros [= <- <-]; by left|].
  destruct (strings_Split_first line ".") as (part0 & parts & ->).
  cbn [lookup list_lookup].
  destruct (strconv_ParseUint part0 32) as [first [e|]];
    [intros [= <- <-]; by left|].
  assert (Hzeros : forall s v e,
             strconv_ParseUint (s ++ "00")%string 32 = (v, e) ->
             match e with
             | None => v mod 100 = 0 /\ v <= 4294967295
             | Some _ => v = 0 \/ v = 4294967295
             end).
  { intros s v e Hparse. apply strconv_ParseUint_sound in Hparse.
    destruct e as [e|]; [exact Hparse|].
    destruct Hparse as (_ & _ & -> & Hle). split; [|exact Hle].
    rewrite decimalValue_app. cbn [decimalValue].
    change (N_of_ascii "0" - 48) with 0.
    replace ((decimalValue s 0 * 10 + 0) * 10 + 0) with (decimalValue s 0 * 100) by lia.
    apply N.Div0.mod_mul. }
  destruct (first <? 10).
  - destruct parts as [|second parts']; cbn [lookup list_lookup]; [done|].
    rewrite <- append_assoc.
    destruct (strconv_ParseUint _ 32) as [v [e|]] eqn:Hparse;
      intros [= <- <-]; exact (Hzeros _ _ _ Hparse).
  - change "0000"%string with ("00" ++ "00")%string. rewrite <- append_assoc.
    destruct (strconv_ParseUint _ 32) as [v [e|]] eqn:Hparse;
      intros [= <- <-]; exact (Hzeros _ _ _ Hparse).
Qed.

(** X18.  [getPostgresVersion] panics on exactly one kind of file: one
    whose first line is a non-empty string of decimal digits, without a
    dot, that denotes a number below 10.  The panic is the read of
    [parts[1]] in a slice of length 1. *)
Theorem getPostgresVersion_panics_iff (p : PanicValue) :
  getPostgresVersion fs pgDataPath = Panics p
  <-> p = PanicIndexOutOfRange 1 1
      /\ exists buf line,
           ioutil_ReadFile fs (path_Join fs pgDataPath "PG_VERSION") = inr buf
           /\ scanFirstLine buf = (line, None)
           /\ line <> EmptyString
           /\ allDigits line = true
           /\ decimalValue line 0 < 10.
Proof.
  unfold getPostgresVersion. split.
  - destruct (ioutil_ReadFile fs _) as [e|buf]; [done|].
    destruct (scanFirstLine buf) as [line [e|]] eqn:Hscan; [done|].
    destruct (strings_Split_first line ".") as (part0 & parts & Hparts).
    rewrite Hparts. cbn [lookup list_lookup].
    destruct (strconv_ParseUint part0 32) as [first [e|]] eqn:Hfirst; [done|].
    destruct (N.ltb_spec first 10) as [Hlt|_].
    + destruct parts as [|second parts']; cbn [lookup list_lookup length].
      * intros [= <-]. split; [done|]. exists buf, line.
        apply strings_Split_one in Hparts as ->.
        apply strconv_ParseUint_sound in Hfirst as (Hne & Hall & -> & _).
        done.
      * clear Hfirst. by destruct (strconv_ParseUint _ 32) as [v [e|]].
    + clear Hfirst. by destruct (strconv_ParseUint _ 32) as [v [e|]].
  - intros (-> & buf & line & -> & -> & Hne & Hall & Hlt).
    rewrite strings_Split_digits by done. cbn [lookup list_lookup length].
    rewrite strconv_ParseUint_fits; [|done|done|lia|cbn; lia].
    by destruct (N.ltb_spec (decimalValue line 0) 10) as [_|?]; [|lia].
Qed.

End Files.

(** * The extra properties at work *)

Section WorkersAtWork.
Import iocache dedup examples.

(** X1 at work: after [loadKey1] one request was dequeued, none was
    prefaulted yet, and one of the two workers is busy with it. *)
Lemma workers_bound_prefaults_witness :
  run (New cfg2 []) loadKey1 = Some (iocAfter loadKey1)
  /\ dequeued (events (iocAfter loadKey1))
     = (prefaulted (events (iocAfter loadKey1)) + busy (workers (iocAfter loadKey1)))%nat
  /\ (dequeued (events (iocAfter loadKey1))
      <= prefaulted (events (iocAfter loadKey1)) + 2)%nat.
Proof.
  assert (Hrun : run (New cfg2 []) loadKey1 = Some (iocAfter loadKey1))
    by (vm_compute; reflexivity).
  destruct (workers_bound_prefaults cfg2 [] loadKey1 (iocAfter loadKey1) Hrun)
    as (_ & _ & Hinv & Hbound).
  split; [exact Hrun|]. split; [exact Hinv|exact Hbound].
Defined.

(** X2 at work: both workers have returned, so the context is done. *)
Lemma workers_exit_only_on_cancel_witness :
  run (New cfg2 []) shutdownRun = Some (iocAfter shutdownRun)
  /\ Wait_returns (iocAfter shutdownRun) = true
  /\ ctxDone (iocAfter shutdownRun) = true.
Proof.
  assert (Hrun : run (New cfg2 []) shutdownRun = Some (iocAfter shutdownRun))
    by (vm_compute; reflexivity).
  assert (Hwait : Wait_returns (iocAfter shutdownRun) = true)
    by (vm_compute; reflexivity).
  destruct (workers_exit_only_on_cancel cfg2 [] shutdownRun (iocAfter shutdownRun) Hrun)
    as [_ Hdone].
  split; [exact Hrun|]. split; [exact Hwait|].
  apply Hdone; [discriminate|exact Hwait].
Defined.

(** X3 at work: a request after the shutdown stores its marker and
    reaches no worker. *)
Lemma no_prefault_after_exit_witness :
  Wait_returns (iocAfter shutdownRun) = true
  /\ exists ioc',
       run (iocAfter shutdownRun) lateRequest = Some ioc'
       /\ Wait_returns ioc' = true
       /\ enqueues key1 (events ioc') = 0%nat
       /\ prefaults key1 (events ioc') = 0%nat.
Proof.
  assert (Hwait : Wait_returns (iocAfter shutdownRun) = true)
    by (vm_compute; reflexivity).
  split; [exact Hwait|].
  destruct (run (iocAfter shutdownRun) lateRequest) as [ioc'|] eqn:Hrun;
    [|vm_compute in Hrun; discriminate Hrun].
  exists ioc'. split; [reflexivity|].
  destruct (no_prefault_after_exit key1 lateRequest (iocAfter shutdownRun) ioc' Hwait Hrun)
    as (Hwait' & Henq & Hpre & _).
  split; [exact Hwait'|]. split; [exact Henq|exact Hpre].
Defined.

(** X4 at work: the marker of [key1] is stored, and [key1] was handed
    over. *)
Lemma marker_means_enqueued_witness :
  run (New cfg2 []) loadKey1 = Some (iocAfter loadKey1)
  /\ ctxDone (iocAfter loadKey1) = false
  /\ key1 ∈ c (iocAfter loadKey1)
  /\ (1 <= enqueues key1 (events (iocAfter loadKey1)))%nat.
Proof.
  assert (Hrun : run (New cfg2 []) loadKey1 = Some (iocAfter loadKey1))
    by (vm_compute; reflexivity).
  assert (Hctx : ctxDone (iocAfter loadKey1) = false) by (vm_compute; reflexivity).
  assert (Hin : key1 ∈ c (iocAfter loadKey1))
    by (apply (bool_decide_unpack _); by vm_compute).
  split; [exact Hrun|]. split; [exact Hctx|]. split; [exact Hin|].
  exact (marker_means_enqueued cfg2 [] loadKey1 (iocAfter loadKey1) key1 Hrun Hctx Hin).
Defined.

(** X6 at work: the loader of [key1] has handed the key over and is
    about to return when the cache is purged. *)
Lemma Purge_overtaken_by_loader_witness :
  loaders (iocAfter handedOver) !! key1 = Some AtReturn
  /\ exists ioc',
       run (iocAfter handedOver) [APurge; ALoaderReturn key1] = Some ioc'
       /\ c ioc' = {[key1]}.
Proof.
  assert (Hl : loaders (iocAfter handedOver) !! key1 = Some AtReturn)
    by (vm_compute; reflexivity).
  split; [exact Hl|].
  destruct (Purge_overtaken_by_loader (iocAfter handedOver) key1) as [_ H].
  destruct (H Hl) as (ioc' & Hrun & Hc & _).
  exists ioc'. split; [exact Hrun|exact Hc].
Defined.

(** X7 at work: the marker of [key1] goes when the prefault of worker 0
    fails. *)
Lemma marker_dropped_only_by_witness :
  step (iocAfter loadKey1)
    (AWorkerPrefault 0 [] (Some (errorNew "no such file or directory")))
  = Some (iocAfter failedPrefault)
  /\ key1 ∈ c (iocAfter loadKey1)
  /\ (key1 ∉ c (iocAfter failedPrefault))
  /\ workers (iocAfter loadKey1) !! 0%nat = Some (AtPrefault key1).
Proof.
  assert (Hstep : step (iocAfter loadKey1)
                    (AWorkerPrefault 0 [] (Some (errorNew "no such file or directory")))
                  = Some (iocAfter failedPrefault)) by (vm_compute; reflexivity).
  assert (Hin : key1 ∈ c (iocAfter loadKey1))
    by (apply (bool_decide_unpack _); by vm_compute).
  assert (Hout : key1 ∉ c (iocAfter failedPrefault))
    by (apply (bool_decide_unpack _); by vm_compute).
  split; [exact Hstep|]. split; [exact Hin|]. split; [exact Hout|].
  destruct (marker_dropped_only_by key1 _ _ _ Hstep Hin Hout)
    as [H|[H|[H|(threadID & fhc' & e & Ha & Hw)]]]; try discriminate H.
  by injection Ha as <- _ _.
Defined.

End WorkersAtWork.

Section PassesAtWork.
Import agent frames examples.

(** X8 at work: an agent with its pool, in mode auto. *)
Lemma predictDBWALFilenames_returns_witness :
  pool (self (worldAt 7)) = true
  /\ validMode (envWith "auto" (inr true) (QueryFails (errorNew "broken pipe")) 8)
  /\ exists r w',
       predictDBWALFilenames
         (envWith "auto" (inr true) (QueryFails (errorNew "broken pipe")) 8)
         walAB (worldAt 7)
       = (Returns r, w').
Proof.
  assert (Hmode : validMode
                    (envWith "auto" (inr true) (QueryFails (errorNew "broken pipe")) 8))
    by (right; right; reflexivity).
  split; [reflexivity|]. split; [exact Hmode|].
  destruct (predictDBWALFilenames_returns
              (envWith "auto" (inr true) (QueryFails (errorNew "broken pipe")) 8)
              walAB (worldAt 7)) as [H _].
  exact (H eq_refl Hmode).
Defined.

(** X9 at work: the agent of [worldAt] has its pool, and nothing is
    done. *)
Lemma ensureDBPool_once_witness :
  pool (self (worldAt 7)) = true
  /\ ensureDBPool (follower (QueryRows [] None)) (worldAt 7) = (Returns None, worldAt 7).
Proof.
  split; [reflexivity|].
  destruct (ensureDBPool_once (follower (QueryRows [] None)) (worldAt 7))
    as (err & w1 & Hret & Hpool & _).
  destruct (Hpool eq_refl) as [He Hw]. rewrite He, Hw in Hret. exact Hret.
Defined.

(** X10 at work: the agent last saw timeline 8 and PostgreSQL reports
    8: no purge, and the caches are as they were. *)
Lemma getWALFilesDB_purges_at_most_once_witness :
  let env := follower (QueryRows [ScanOK (lagRow float4096)] None) in
  exists tr,
    trace (getWALFilesDB env (worldAt 8)).2 = trace (worldAt 8) ++ tr
    /\ purges tr = 0%nat
    /\ walCache (self (getWALFilesDB env (worldAt 8)).2) = walCache (self (worldAt 8)).
Proof.
  intros env.
  destruct (getWALFilesDB_purges_at_most_once env (worldAt 8))
    as (tr & Htr & _ & _ & Hkeep).
  exists tr. split; [exact Htr|].
  assert (Hnone : purges tr = 0%nat).
  { vm_compute in Htr. apply (f_equal purges) in Htr.
    rewrite <- Htr. reflexivity. }
  split; [exact Hnone|exact (Hkeep Hnone)].
Defined.

(** X11 at work: the predictions of this pass fail, and the pass
    returns a list and nil. *)
Lemma getWALFilesDB_returns_witness :
  validMode (follower (QueryFails (errorNew "broken pipe")))
  /\ exists walFiles w',
       getWALFilesDB (follower (QueryFails (errorNew "broken pipe"))) (worldAt 7)
       = (Returns (walFiles, None), w')
       /\ walFiles <> None.
Proof.
  assert (Hmode : validMode (follower (QueryFails (errorNew "broken pipe"))))
    by (right; left; reflexivity).
  split; [exact Hmode|].
  destruct (getWALFilesDB_returns (follower (QueryFails (errorNew "broken pipe")))
              (worldAt 7) Hmode) as (walFiles & err & w' & Hret & Hnil & Herr).
  assert (He : err = None).
  { apply Herr. exists (worldAt 7), 8, [11458838528]. split; reflexivity. }
  subst err. exists walFiles, w'. split; [exact Hret|]. by apply Hnil.
Defined.

(** X12 at work: a primary. *)
Lemma getWALFilesDB_primary_mode_witness :
  (getWALFilesDB (envWith "primary" (inr false) (QueryRows [] None) 8) (worldAt 7)).1
  = Returns (Some [], None).
Proof.
  apply (getWALFilesDB_primary_mode
           (envWith "primary" (inr false) (QueryRows [] None) 8)
           (worldAt 7) (worldAt 7) 8 [11458838528]); reflexivity.
Defined.

(** X13 at work: a follower whose lag query breaks. *)
Lemma getWALFilesDB_swallows_lag_failure_witness :
  (getWALFilesDB (follower (QueryFails (errorNew "broken pipe"))) (worldAt 7)).1
  = Returns (Some [], None).
Proof.
  apply (getWALFilesDB_swallows_lag_failure
           (follower (QueryFails (errorNew "broken pipe")))
           (worldAt 7) (worldAt 7) 8 [11458838528]);
    [reflexivity|intros tr; eexists; reflexivity|reflexivity|reflexivity].
Defined.

(** X14 at work: the connection is reset after the one row was
    scanned. *)
Lemma predictDBWALFilenames_unknown_lag_full_readahead_witness :
  (predictDBWALFilenames
     (follower (QueryRows [ScanOK (lagRow float4096)]
                  (Some (errorNew "connection reset by peer"))))
     walAB (worldAt 7)).1
  = Returns (Some [walAB], None).
Proof.
  apply (predictDBWALFilenames_unknown_lag_full_readahead
           (follower (QueryRows [ScanOK (lagRow float4096)]
                        (Some (errorNew "connection reset by peer"))))
           walAB (worldAt 7) (worldAt 7) [lagRow float4096]
           (errorNew "connection reset by peer") 8 11458838528);
    [reflexivity|reflexivity|reflexivity|by vm_compute].
Defined.

End PassesAtWork.

Section FilesAtWork.
Import agent numerals examples.

(** X15 at work: a [postmaster.pid] of PID 4711. *)
Lemma findPostgreSQLPostmasterPID_reads_back_witness :
  findPostgreSQLPostmasterPID id (fsWith pidFile) "/var/lib/postgresql/data/postmaster.pid"
  = (4711, None).
Proof.
  apply (findPostgreSQLPostmasterPID_reads_back (fsWith pidFile) id
           "/var/lib/postgresql/data/postmaster.pid" 4711
           (Some "/var/lib/postgresql/data")); [reflexivity|by vm_compute].
Defined.

(** X17 at work: 9.6. *)
Lemma getPostgresVersion_sound_witness :
  getPostgresVersion (fsWith "9.6") "/var/pg" = Returns (90600, None)
  /\ 90600 mod 100 = 0 /\ 90600 <= 4294967295.
Proof.
  assert (Hv : getPostgresVersion (fsWith "9.6") "/var/pg" = Returns (90600, None))
    by (vm_compute; reflexivity).
  split; [exact Hv|].
  exact (getPostgresVersion_sound (fsWith "9.6") "/var/pg" 90600 None Hv).
Defined.

(** X18 at work: a [PG_VERSION] that says 9 and no more. *)
Lemma getPostgresVersion_panics_iff_witness :
  getPostgresVersion (fsWith "9") "/var/pg" = Panics (PanicIndexOutOfRange 1 1).
Proof.
  apply (getPostgresVersion_panics_iff (fsWith "9") "/var/pg").
  split; [reflexivity|]. exists "9", "9".
  split; [reflexivity|]. split; [by vm_compute|]. split; [discriminate|].
  split; [reflexivity|by vm_compute].
Defined.

End FilesAtWork.
